(** * DaisySP delay line ([DelayLineView<T>], the [DSY_DELAY_H] header)

    A shallow embedding of the ring-buffer delay line and the proofs of its
    specification.

    Modelling choices.
    - [size_t] is an unsigned [size_bits m]-bit integer, a [Z] reduced modulo
      [2 ^ size_bits m] after every operation ([to_size]); the data model [m]
      is [ILP32] (the Daisy's Cortex-M7) or [LP64] (a desktop build).
    - [int32_t] is a [Z] in [[INT32_MIN, INT32_MAX]]; signed overflow and an
      out-of-range float-to-integer conversion are undefined behaviour.
    - The sample type [T] and [float] are idealised as the exact rationals
      [Q]: no rounding, no infinities, no NaN.  Results are compared with
      [Qeq] ([==]).
    - Undefined behaviour (signed overflow, unrepresentable conversion,
      remainder by zero, access outside the backing store) is the result
      [None] of the option monad. *)

From Stdlib Require Import ZArith QArith Qround Lia Lqa.
From stdpp Require Import base option list.

Local Open Scope Z_scope.

(** ** Machine integers *)

Inductive data_model : Set := ILP32 | LP64.

Definition size_bits (m : data_model) : Z :=
  match m with ILP32 => 32 | LP64 => 64 end.

(** [SIZE_MAX + 1]. *)
Definition size_modulus (m : data_model) : Z := 2 ^ size_bits m.

(** Conversion to [size_t], and the reduction every [size_t] operation ends with. *)
Definition to_size (m : data_model) (z : Z) : Z := z mod size_modulus m.

Definition INT32_MIN : Z := - 2 ^ 31.
Definition INT32_MAX : Z := 2 ^ 31 - 1.

Definition in_int32 (z : Z) : bool := (INT32_MIN <=? z) && (z <=? INT32_MAX).

(** The result of an [int32_t] operation: defined only when representable. *)
Definition int32_result (z : Z) : option Z :=
  if in_int32 z then Some z else None.

(** Conversion of a [size_t] to [int32_t]: the value modulo [2 ^ 32], signed. *)
Definition to_int32 (z : Z) : Z := (z + 2 ^ 31) mod 2 ^ 32 - 2 ^ 31.

(** [a % b] on [size_t]. *)
Definition size_rem (a b : Z) : option Z :=
  if b =? 0 then None else Some (a mod b).

(** ** Floats *)

(** Truncation toward zero, the value of [static_cast<int32_t>(x)]. *)
Definition Qtrunc (x : Q) : Z := Z.quot (Qnum x) (Zpos (Qden x)).

(** [static_cast<int32_t>(x)]. *)
Definition float_to_int32 (x : Q) : option Z := int32_result (Qtrunc x).

(** [static_cast<float>(n)]. *)
Definition int32_to_float (n : Z) : Q := inject_Z n.

(** ** The backing store *)

(** [line_[i]] as an rvalue. *)
Definition load (line : list Q) (i : Z) : option Q :=
  if 0 <=? i then line !! Z.to_nat i else None.

(** [line_[i] = v]. *)
Definition store (line : list Q) (i : Z) (v : Q) : option (list Q) :=
  if (0 <=? i) && (i <? Z.of_nat (length line))
  then Some (<[Z.to_nat i := v]> line)
  else None.

(** ** The object *)

Record DelayLineView : Type := mkDelayLineView {
  frac_ : Q;
  write_ptr_ : Z;
  delay_ : Z;
  line_ : list Q;
  max_size_ : Z
}.

Definition set_line (st : DelayLineView) (l : list Q) : DelayLineView :=
  mkDelayLineView (frac_ st) (write_ptr_ st) (delay_ st) l (max_size_ st).

Definition set_write_ptr (st : DelayLineView) (p : Z) : DelayLineView :=
  mkDelayLineView (frac_ st) p (delay_ st) (line_ st) (max_size_ st).

Definition set_delay (st : DelayLineView) (d : Z) : DelayLineView :=
  mkDelayLineView (frac_ st) (write_ptr_ st) d (line_ st) (max_size_ st).

Definition set_frac (st : DelayLineView) (f : Q) : DelayLineView :=
  mkDelayLineView f (write_ptr_ st) (delay_ st) (line_ st) (max_size_ st).

Section Methods.

Variable m : data_model.

(** The loop of [Reset]: [n] iterations left, index [i]. *)
Fixpoint Reset_loop (n : nat) (i : Z) (line : list Q) : option (list Q) :=
  match n with
  | O => Some line
  | S n' => line' ← store line i 0%Q; Reset_loop n' (to_size m (i + 1)) line'
  end.

Definition Reset (st : DelayLineView) : option DelayLineView :=
  line' ← Reset_loop (Z.to_nat (max_size_ st)) 0 (line_ st);
  Some (set_delay (set_write_ptr (set_line st line') 0) 1).

(** [Init] on an object whose fields still hold what the constructor left. *)
Definition Init (buf : list Q) (max_size : Z) (st : DelayLineView) : option DelayLineView :=
  Reset (mkDelayLineView (frac_ st) (write_ptr_ st) (delay_ st) buf max_size).

(** [SetDelay(size_t)]. *)
Definition SetDelay (delay : Z) (st : DelayLineView) : option DelayLineView :=
  let st1 := set_frac st 0%Q in
  Some (set_delay st1
          (if delay <? max_size_ st1 then delay else to_size m (max_size_ st1 - 1))).

(** [SetDelay(float)]. *)
Definition SetDelay_float (delay : Q) (st : DelayLineView) : option DelayLineView :=
  int_delay ← float_to_int32 delay;
  let st1 := set_frac st (delay - int32_to_float int_delay)%Q in
  Some (set_delay st1
          (if to_size m int_delay <? max_size_ st1
           then to_size m int_delay
           else to_size m (max_size_ st1 - 1))).

Definition Write (sample : Q) (st : DelayLineView) : option DelayLineView :=
  line' ← store (line_ st) (write_ptr_ st) sample;
  p ← size_rem (to_size m (to_size m (write_ptr_ st - 1) + max_size_ st)) (max_size_ st);
  Some (set_write_ptr (set_line st line') p).

(** [Read()]. *)
Definition Read (st : DelayLineView) : option Q :=
  ia ← size_rem (to_size m (write_ptr_ st + delay_ st)) (max_size_ st);
  a ← load (line_ st) ia;
  ib ← size_rem (to_size m (to_size m (write_ptr_ st + delay_ st) + 1)) (max_size_ st);
  b ← load (line_ st) ib;
  Some (a + (b - a) * frac_ st)%Q.

(** [Read(float)]. *)
Definition Read_float (delay : Q) (st : DelayLineView) : option Q :=
  delay_integral ← float_to_int32 delay;
  let delay_fractional := (delay - int32_to_float delay_integral)%Q in
  ia ← size_rem (to_size m (write_ptr_ st + to_size m delay_integral)) (max_size_ st);
  a ← load (line_ st) ia;
  ib ← size_rem (to_size m (to_size m (write_ptr_ st + to_size m delay_integral) + 1))
                (max_size_ st);
  b ← load (line_ st) ib;
  Some (a + (b - a) * delay_fractional)%Q.

(** [line_[(t + k) % max_size_]] for an [int32_t] [t] and a literal [k]. *)
Definition load_int32 (st : DelayLineView) (t k : Z) : option Q :=
  tk ← int32_result (t + k);
  i ← size_rem (to_size m tk) (max_size_ st);
  load (line_ st) i.

Definition ReadHermite (delay : Q) (st : DelayLineView) : option Q :=
  delay_integral ← float_to_int32 delay;
  let delay_fractional := (delay - int32_to_float delay_integral)%Q in
  let t := to_int32 (to_size m (to_size m (write_ptr_ st + to_size m delay_integral)
                                + max_size_ st)) in
  xm1 ← load_int32 st t (-1);
  x0 ← load_int32 st t 0;
  x1 ← load_int32 st t 1;
  x2 ← load_int32 st t 2;
  let c := ((x1 - xm1) * (1 # 2))%Q in
  let v := (x0 - x1)%Q in
  let w := (c + v)%Q in
  let a := (w + v + (x2 - x0) * (1 # 2))%Q in
  let b_neg := (w + a)%Q in
  let f := delay_fractional in
  Some ((((a * f) - b_neg) * f + c) * f + x0)%Q.

Definition Allpass (sample : Q) (delay : Z) (coefficient : Q) (st : DelayLineView)
  : option (Q * DelayLineView) :=
  i ← size_rem (to_size m (write_ptr_ st + delay)) (max_size_ st);
  read ← load (line_ st) i;
  let write := (sample + coefficient * read)%Q in
  st' ← Write write st;
  Some ((- write * coefficient + read)%Q, st').

End Methods.

(** ** Well-formed objects

    The object has been initialised over a store of at least [max_size_]
    elements; the store is an array object, hence of fewer than
    [2 ^ (size_bits m - 1)] elements ([PTRDIFF_MAX]); the cursor is inside the
    ring and the stored delay is at most the capacity. *)

Definition wf (m : data_model) (st : DelayLineView) : Prop :=
  0 < max_size_ st < 2 ^ (size_bits m - 1) /\
  max_size_ st <= Z.of_nat (length (line_ st)) /\
  0 <= write_ptr_ st < max_size_ st /\
  0 <= delay_ st <= max_size_ st.

(** The sample the ring holds at (mathematical) position [p], taken modulo
    the capacity: the [storage[p mod capacity]] of the specification. *)
Definition slot (st : DelayLineView) (p : Z) : option Q :=
  line_ st !! Z.to_nat (p mod max_size_ st).

(** ** Call sequences *)

Inductive call : Type :=
| CallReset
| CallSetDelay (delay : Z)
| CallSetDelay_float (delay : Q)
| CallWrite (sample : Q)
| CallRead
| CallRead_float (delay : Q)
| CallReadHermite (delay : Q)
| CallAllpass (sample : Q) (delay : Z) (coefficient : Q).

(** The object after one call; a [size_t] argument is converted at the call,
    the value a read returns is dropped. *)
Definition exec (m : data_model) (c : call) (st : DelayLineView)
  : option DelayLineView :=
  match c with
  | CallReset => Reset m st
  | CallSetDelay d => SetDelay m (to_size m d) st
  | CallSetDelay_float d => SetDelay_float m d st
  | CallWrite s => Write m s st
  | CallRead => _ ← Read m st; Some st
  | CallRead_float d => _ ← Read_float m d st; Some st
  | CallReadHermite d => _ ← ReadHermite m d st; Some st
  | CallAllpass s d g => r ← Allpass m s (to_size m d) g st; Some (snd r)
  end.

Fixpoint run (m : data_model) (cs : list call) (st : DelayLineView)
  : option DelayLineView :=
  match cs with
  | [] => Some st
  | c :: cs' => st' ← exec m c st; run m cs' st'
  end.

(** The delay argument a call passes, when it has one, is at least 1. *)
Definition delay_arg_ge_1 (m : data_model) (c : call) : bool :=
  match c with
  | CallSetDelay d | CallAllpass _ d _ => 1 <=? to_size m d
  | CallSetDelay_float d | CallRead_float d | CallReadHermite d => Qle_bool 1 d
  | CallReset | CallWrite _ | CallRead => true
  end.

(** One audio tick in the order [Write], then [Read()]. *)
Definition tick (m : data_model) (sample : Q) (st : DelayLineView)
  : option (Q * DelayLineView) :=
  st' ← Write m sample st;
  out ← Read m st';
  Some (out, st').

(** The outputs of successive ticks, and the object after them. *)
Fixpoint ticks (m : data_model) (samples : list Q) (st : DelayLineView)
  : option (list Q * DelayLineView) :=
  match samples with
  | [] => Some ([], st)
  | s :: rest =>
      r ← tick m s st;
      rs ← ticks m rest (snd r);
      Some (fst r :: fst rs, snd rs)
  end.

(** ** The formulas of the specification *)

(** Linear interpolation, [a + (b - a) * f]. *)
Definition lerp (a b f : Q) : Q := (a + (b - a) * f)%Q.

(** The four-point Hermite formula as the specification words it. *)
Definition hermite_spec (xm1 x0 x1 x2 f : Q) : Q :=
  let c := ((x1 - xm1) / 2)%Q in
  let v := (x0 - x1)%Q in
  let w := (c + v)%Q in
  let a := (w + v + (x2 - x0) / 2)%Q in
  let bNeg := (w + a)%Q in
  (((a * f - bNeg) * f + c) * f + x0)%Q.

(** The output of the allpass section, [h - g * (s + g * h)]. *)
Definition allpass_out (s g h : Q) : Q := (h - g * (s + g * h))%Q.

(** [d] has integer part [i] and fraction [f], for a non-negative [d]. *)
Definition splits (d : Q) (i : Z) (f : Q) : Prop :=
  (d == inject_Z i + f)%Q /\ (0 <= f)%Q /\ (f < 1)%Q /\ 0 <= i.

(** The ring holds the ramp [alpha + beta * p] at delay [p], that is [p]
    slots forward of the write cursor. *)
Definition ramp_at (st : DelayLineView) (alpha beta : Q) (p : Z) : Prop :=
  exists x, slot st (write_ptr_ st + p) = Some x /\
            (x == alpha + beta * inject_Z p)%Q.

(** Every tick after the first reads the sample written one tick before. *)
Definition reads_second_most_recent (samples outs : list Q) : Prop :=
  forall (i : nat) (s o : Q),
    samples !! i = Some s -> outs !! S i = Some o -> (o == s)%Q.

(** Every tick reads the sample it has just written. *)
Definition reads_most_recent (samples outs : list Q) : Prop :=
  Forall2 Qeq outs samples.

(** The delay of [Read(float)] is non-negative and its integer part is
    representable. *)
Definition read_in_range (d : Q) : Prop :=
  (0 <= d)%Q /\ Qtrunc d <= INT32_MAX.

(** The delay of [ReadHermite] is non-negative and its four [int32_t]
    indices are representable. *)
Definition hermite_in_range (st : DelayLineView) (d : Q) : Prop :=
  (0 <= d)%Q /\
  write_ptr_ st + Qtrunc d + max_size_ st + 2 <= INT32_MAX.

(** The arguments of a call keep it clear of undefined behaviour: the float
    delays convert to [int32_t] and the indices of the reads are
    representable. *)
Definition call_in_range (st : DelayLineView) (c : call) : Prop :=
  match c with
  | CallSetDelay_float d => in_int32 (Qtrunc d) = true
  | CallRead_float d => read_in_range d
  | CallReadHermite d => hermite_in_range st d
  | _ => True
  end.

(** ** Concrete objects *)

(** An object before [Init]: the constructor sets no field. *)
Definition unconstructed : DelayLineView :=
  mkDelayLineView (7 # 3) 99 42 [] 0.

(** A ring of 8 slots holding the ramp [0, 1, ..., 7], cursor at 0, stored
    delay 3.5. *)
Definition ramp8 : DelayLineView :=
  mkDelayLineView (1 # 2) 0 3 [0; 1; 2; 3; 4; 5; 6; 7]%Q 8.

(** A cleared ring of 4 slots with the stored delay 1. *)
Definition ring4 : DelayLineView :=
  mkDelayLineView 0 0 1 [0; 0; 0; 0]%Q 4.

(** A session of calls whose delay arguments are at least 1. *)
Definition session : list call :=
  [CallSetDelay 9; CallWrite 1; CallRead; CallSetDelay_float (5 # 2);
   CallAllpass 1 2 (1 # 2); CallReadHermite (3 # 2); CallRead_float 7;
   CallReset; CallWrite 2].

(** Twice the capacity of [ring4] in distinct samples. *)
Definition one_to_eight : list Q := [1; 2; 3; 4; 5; 6; 7; 8]%Q.

(** ** Call patterns over several ticks *)

(** One audio tick in the order [Read()], then [Write]. *)
Definition tick_read_write (m : data_model) (sample : Q) (st : DelayLineView)
  : option (Q * DelayLineView) :=
  out ← Read m st;
  st' ← Write m sample st;
  Some (out, st').

Fixpoint ticks_read_write (m : data_model) (samples : list Q) (st : DelayLineView)
  : option (list Q * DelayLineView) :=
  match samples with
  | [] => Some ([], st)
  | s :: rest =>
      r ← tick_read_write m s st;
      rs ← ticks_read_write m rest (snd r);
      Some (fst r :: fst rs, snd rs)
  end.

(** One [Allpass] call per tick, with a fixed delay and coefficient. *)
Fixpoint allpass_ticks (m : data_model) (delay : Z) (coefficient : Q)
    (samples : list Q) (st : DelayLineView) : option (list Q * DelayLineView) :=
  match samples with
  | [] => Some ([], st)
  | s :: rest =>
      r ← Allpass m s delay coefficient st;
      rs ← allpass_ticks m delay coefficient rest (snd r);
      Some (fst r :: fst rs, snd rs)
  end.

(** The sample that entered the ring [d] writes before tick [t], when the
    ticks write [ws] to the object [st]: the one written at tick [t - d], or
    for [t < d] the one [st] holds [d - t] slots forward of its cursor. *)
Definition delayed (st : DelayLineView) (d : nat) (ws : list Q) (t : nat)
  : option Q :=
  if (d <=? t)%nat then ws !! (t - d)%nat
  else slot st (write_ptr_ st + Z.of_nat (d - t)).

(** A call whose arguments keep it clear of undefined behaviour on every
    well-formed object of capacity [cap]. *)
Definition call_safe (cap : Z) (c : call) : bool :=
  match c with
  | CallSetDelay_float d => in_int32 (Qtrunc d)
  | CallRead_float d => Qle_bool 0 d && (Qtrunc d <=? INT32_MAX)
  | CallReadHermite d => Qle_bool 0 d && (Qtrunc d + 2 * cap + 1 <=? INT32_MAX)
  | _ => true
  end.

(** ** The owning delay line, [DelayLine<T, MaxSize>] *)

(** [DelayLine::Init()]: [Init(buf, MaxSize)] on the member array
    [T buf[MaxSize]], which holds whatever the constructor left there. *)
Definition DelayLine_Init (m : data_model) (MaxSize : Z) (buf : list Q)
    (st : DelayLineView) : option DelayLineView :=
  Init m buf MaxSize st.

(** ** The phasor, [Phasor::SetFreq] and [Phasor::Process]

    The class declaration is not part of the sources at hand; the record has
    the four [float] members the two methods use. *)

Record Phasor : Type := mkPhasor {
  sample_rate_ : Q;
  freq_ : Q;
  inc_ : Q;
  phs_ : Q
}.

(** [fmax] of [<math.h>]. *)
Definition fmax (x y : Q) : Q := if Qle_bool y x then x else y.

(** [Phasor::SetFreq].  The quotient by a zero sample rate is an IEEE
    infinity or NaN, which no rational stands for: the result is [None]. *)
Definition Phasor_SetFreq (freq : Q) (p : Phasor) : option Phasor :=
  let freq' := fmax freq 0 in
  if Qeq_bool (sample_rate_ p) 0 then None
  else Some (mkPhasor (sample_rate_ p) freq' (freq' / sample_rate_ p) (phs_ p)).

(** [Phasor::Process]: the value returned and the object left. *)
Definition Phasor_Process (p : Phasor) : Q * Phasor :=
  let out := phs_ p in
  let phs1 := (phs_ p + inc_ p)%Q in
  let phs2 := if Qle_bool phs1 1 then phs1 else (phs1 - 1)%Q in
  (out, mkPhasor (sample_rate_ p) (freq_ p) (inc_ p) phs2).

(** [n] successive calls of [Process]: the values returned, in order, and
    the object left. *)
Fixpoint Phasor_run (n : nat) (p : Phasor) : list Q * Phasor :=
  match n with
  | O => ([], p)
  | S n' =>
      let r := Phasor_Process p in
      let rs := Phasor_run n' (snd r) in
      (fst r :: fst rs, snd rs)
  end.

(** A phasor at 48 kHz playing 12 kHz, a quarter of the way up its ramp. *)
Definition phasor48k : Phasor := mkPhasor 48000 12000 (1 # 4) (1 # 4).

(** A ring of 4 slots whose store is [40, 10, 20, 30], cursor at 1, stored
    delay 2 and no fraction. *)
Definition ring4_used : DelayLineView :=
  mkDelayLineView 0 1 2 [40; 10; 20; 30]%Q 4.

(** A view of 4 slots on a store of 6 elements. *)
Definition ring4_of_6 : DelayLineView :=
  mkDelayLineView 0 0 1 [1; 2; 3; 4; 77; 88]%Q 4.

(** ** Tactics for concrete inputs *)

Ltac wf_concrete := unfold wf; simpl; lia.

Ltac splits_concrete :=
  unfold splits; repeat split;
  first [ lia | vm_compute; reflexivity | vm_compute; discriminate ].

(** ** Facts on machine integers *)

Lemma size_modulus_half (m : data_model) :
  size_modulus m = 2 * 2 ^ (size_bits m - 1).
Proof. destruct m; reflexivity. Qed.

Lemma int32_below_half (m : data_model) : 2 ^ 31 <= 2 ^ (size_bits m - 1).
Proof. destruct m; simpl; lia. Qed.

Lemma to_size_small (m : data_model) (z : Z) :
  0 <= z < size_modulus m -> to_size m z = z.
Proof. intros H. unfold to_size. apply Z.mod_small. exact H. Qed.

Lemma to_size_add_l (m : data_model) (a b : Z) :
  to_size m (to_size m a + b) = to_size m (a + b).
Proof. unfold to_size. apply Zplus_mod_idemp_l. Qed.

Lemma to_size_add_r (m : data_model) (a b : Z) :
  to_size m (a + to_size m b) = to_size m (a + b).
Proof. unfold to_size. apply Zplus_mod_idemp_r. Qed.

Lemma to_int32_small (z : Z) : INT32_MIN <= z <= INT32_MAX -> to_int32 z = z.
Proof.
  unfold INT32_MIN, INT32_MAX, to_int32. intros H.
  rewrite Z.mod_small; lia.
Qed.

Lemma int32_result_Some (z : Z) :
  INT32_MIN <= z <= INT32_MAX -> int32_result z = Some z.
Proof.
  intros H. unfold int32_result, in_int32.
  destruct (Z.leb_spec INT32_MIN z); [|lia].
  destruct (Z.leb_spec z INT32_MAX); [|lia].
  reflexivity.
Qed.

Lemma size_rem_Some (a b : Z) : b <> 0 -> size_rem a b = Some (a mod b).
Proof.
  intros H. unfold size_rem. destruct (Z.eqb_spec b 0); [contradiction | reflexivity].
Qed.

(** ** Facts on the store *)

Lemma load_slot (st : DelayLineView) (p : Z) :
  0 < max_size_ st -> load (line_ st) (p mod max_size_ st) = slot st p.
Proof.
  intros H. unfold load, slot.
  destruct (Z.leb_spec 0 (p mod max_size_ st)) as [_|Hn]; [reflexivity|].
  pose proof (Z.mod_pos_bound p (max_size_ st) H). lia.
Qed.

Lemma slot_is_Some (m : data_model) (st : DelayLineView) (p : Z) :
  wf m st -> is_Some (slot st p).
Proof.
  intros (Hc & Hl & _). unfold slot. apply lookup_lt_is_Some.
  pose proof (Z.mod_pos_bound p (max_size_ st) (proj1 Hc)). lia.
Qed.

Lemma store_Some (line : list Q) (i : Z) (v : Q) :
  0 <= i < Z.of_nat (length line) ->
  store line i v = Some (<[Z.to_nat i := v]> line).
Proof.
  intros H. unfold store.
  destruct (Z.leb_spec 0 i); [|lia].
  destruct (Z.ltb_spec i (Z.of_nat (length line))); [|lia].
  reflexivity.
Qed.

(** ** Facts on truncation *)

Lemma Qtrunc_nonneg_floor (x : Q) : (0 <= x)%Q -> Qtrunc x = Qfloor x.
Proof.
  destruct x as [n d]. unfold Qle, Qtrunc, Qfloor. simpl. intros H.
  apply Z.quot_div_nonneg; lia.
Qed.

(** The integer part of a non-negative number, told by its remainder. *)
Lemma Qtrunc_split_nonneg (x f : Q) (i : Z) :
  (x == inject_Z i + f)%Q -> (0 <= f)%Q -> (f < 1)%Q -> 0 <= i -> Qtrunc x = i.
Proof.
  intros Hx Hf0 Hf1 Hi.
  assert (Hx0 : (0 <= x)%Q).
  { rewrite Hx. apply Qle_trans with (inject_Z i + 0)%Q.
    - rewrite Qplus_0_r. change 0%Q with (inject_Z 0). rewrite <- Zle_Qle. exact Hi.
    - apply Qplus_le_r. exact Hf0. }
  rewrite Qtrunc_nonneg_floor by exact Hx0.
  assert (Hle : (inject_Z i <= x)%Q).
  { rewrite Hx. rewrite <- (Qplus_0_r (inject_Z i)) at 1. apply Qplus_le_r. exact Hf0. }
  assert (Hlt : (x < inject_Z (i + 1))%Q).
  { rewrite Hx, inject_Z_plus. apply Qplus_lt_r. exact Hf1. }
  apply Qfloor_resp_le in Hle. rewrite Qfloor_Z in Hle.
  assert (Hfl : (inject_Z (Qfloor x) < inject_Z (i + 1))%Q).
  { eapply Qle_lt_trans; [apply Qfloor_le | exact Hlt]. }
  rewrite <- Zlt_Qlt in Hfl. lia.
Qed.

(** Truncation is toward zero: it commutes with negation. *)
Lemma Qtrunc_opp (x : Q) : Qtrunc (- x) = - Qtrunc x.
Proof. destruct x as [n d]. unfold Qtrunc. simpl. apply Z.quot_opp_l. lia. Qed.

Lemma float_to_int32_Some (x : Q) :
  INT32_MIN <= Qtrunc x <= INT32_MAX -> float_to_int32 x = Some (Qtrunc x).
Proof. apply int32_result_Some. Qed.

(** ** The methods on well-formed objects *)

Section MethodFacts.

Variable m : data_model.

Lemma Write_wf (st : DelayLineView) (sample : Q) :
  wf m st ->
  Write m sample st =
  Some (set_write_ptr
          (set_line st (<[Z.to_nat (write_ptr_ st) := sample]> (line_ st)))
          ((write_ptr_ st - 1) mod max_size_ st)).
Proof.
  intros (Hc & Hl & Hp & Hd). unfold Write.
  rewrite store_Some by lia. simpl.
  rewrite to_size_add_l.
  pose proof (size_modulus_half m) as Hm.
  rewrite to_size_small by lia.
  rewrite size_rem_Some by lia. simpl.
  replace (write_ptr_ st - 1 + max_size_ st)
    with (write_ptr_ st - 1 + 1 * max_size_ st) by lia.
  rewrite Z.mod_add by lia. reflexivity.
Qed.

Lemma Qtrunc_nonneg (x : Q) : (0 <= x)%Q -> 0 <= Qtrunc x.
Proof.
  intros H. rewrite Qtrunc_nonneg_floor by exact H.
  apply Qfloor_resp_le in H. exact H.
Qed.

Lemma read_in_range_int32 (d : Q) :
  read_in_range d -> float_to_int32 d = Some (Qtrunc d) /\ 0 <= Qtrunc d <= INT32_MAX.
Proof.
  intros [H0 H1]. pose proof (Qtrunc_nonneg d H0) as Hn. split; [|lia].
  apply float_to_int32_Some. unfold INT32_MIN. lia.
Qed.

(** Two neighbouring slots of a well-formed ring. *)
Lemma slot_pair (st : DelayLineView) (p : Z) :
  wf m st -> exists a b, slot st p = Some a /\ slot st (p + 1) = Some b.
Proof.
  intros Hwf.
  destruct (slot_is_Some m st p Hwf) as [a Ha].
  destruct (slot_is_Some m st (p + 1) Hwf) as [b Hb].
  exists a, b. split; assumption.
Qed.

(** The two fetches of the linear reads, at a [size_t] position that does
    not wrap. *)
Lemma lerp_fetch (st : DelayLineView) (z : Z) (f a b : Q) :
  wf m st -> 0 <= z -> z + 1 < size_modulus m ->
  slot st z = Some a -> slot st (z + 1) = Some b ->
  (ia ← size_rem (to_size m z) (max_size_ st);
   a ← load (line_ st) ia;
   ib ← size_rem (to_size m (to_size m z + 1)) (max_size_ st);
   b ← load (line_ st) ib;
   Some (a + (b - a) * f)%Q) = Some (lerp a b f).
Proof.
  intros (Hc & _) Hz0 Hz1 Ha Hb.
  rewrite (to_size_small m z) by lia.
  rewrite (to_size_small m (z + 1)) by lia.
  rewrite !size_rem_Some by lia. simpl.
  rewrite (load_slot st z), Ha by lia. simpl.
  rewrite (load_slot st (z + 1)), Hb by lia. reflexivity.
Qed.

Lemma Read_wf (st : DelayLineView) (a b : Q) :
  wf m st ->
  slot st (write_ptr_ st + delay_ st) = Some a ->
  slot st (write_ptr_ st + delay_ st + 1) = Some b ->
  Read m st = Some (lerp a b (frac_ st)).
Proof.
  intros Hwf Ha Hb. unfold Read.
  destruct Hwf as (Hc & Hl & Hp & Hd) eqn:E. clear E.
  pose proof (size_modulus_half m).
  apply lerp_fetch; try assumption; lia.
Qed.

Lemma Read_float_wf (st : DelayLineView) (d a b : Q) :
  wf m st -> read_in_range d ->
  slot st (write_ptr_ st + Qtrunc d) = Some a ->
  slot st (write_ptr_ st + Qtrunc d + 1) = Some b ->
  Read_float m d st = Some (lerp a b (d - inject_Z (Qtrunc d))).
Proof.
  intros Hwf Hd Ha Hb. unfold Read_float.
  destruct (read_in_range_int32 d Hd) as [-> Ht]. simpl.
  destruct Hwf as (Hc & Hl & Hp & Hdl) eqn:E. clear E.
  pose proof (size_modulus_half m). pose proof (int32_below_half m).
  unfold INT32_MAX in Ht.
  rewrite (to_size_small m (Qtrunc d)) by lia.
  apply lerp_fetch; try assumption; lia.
Qed.

Lemma slot_add_cap (st : DelayLineView) (p : Z) :
  0 < max_size_ st -> slot st (p + max_size_ st) = slot st p.
Proof.
  intros H. unfold slot.
  replace (p + max_size_ st) with (p + 1 * max_size_ st) by lia.
  rewrite Z.mod_add by lia. reflexivity.
Qed.

Lemma slot_add_mul_cap (st : DelayLineView) (p k : Z) :
  0 < max_size_ st -> slot st (p + k * max_size_ st) = slot st p.
Proof. intros H. unfold slot. rewrite Z.mod_add by lia. reflexivity. Qed.

Lemma load_int32_wf (st : DelayLineView) (t k : Z) :
  wf m st -> 0 <= t + k <= INT32_MAX ->
  load_int32 m st t k = slot st (t + k).
Proof.
  intros (Hc & _) Ht. unfold load_int32.
  rewrite int32_result_Some by (unfold INT32_MIN; lia). simpl.
  pose proof (size_modulus_half m). pose proof (int32_below_half m).
  unfold INT32_MAX in Ht.
  rewrite to_size_small by lia.
  rewrite size_rem_Some by lia. simpl.
  apply load_slot. lia.
Qed.

(** The variable [t] of [ReadHermite] when nothing overflows. *)
Lemma hermite_t (st : DelayLineView) (i : Z) :
  wf m st -> 0 <= i -> write_ptr_ st + i + max_size_ st <= INT32_MAX ->
  to_int32 (to_size m (to_size m (write_ptr_ st + to_size m i) + max_size_ st))
  = write_ptr_ st + i + max_size_ st.
Proof.
  intros (Hc & Hl & Hp & Hd) Hi Ht.
  pose proof (size_modulus_half m). pose proof (int32_below_half m).
  unfold INT32_MAX in Ht.
  rewrite to_size_add_r, to_size_add_l.
  rewrite to_size_small by lia.
  apply to_int32_small. unfold INT32_MIN, INT32_MAX. lia.
Qed.

Lemma ReadHermite_wf (st : DelayLineView) (d xm1 x0 x1 x2 : Q) :
  wf m st -> hermite_in_range st d ->
  slot st (write_ptr_ st + Qtrunc d - 1) = Some xm1 ->
  slot st (write_ptr_ st + Qtrunc d) = Some x0 ->
  slot st (write_ptr_ st + Qtrunc d + 1) = Some x1 ->
  slot st (write_ptr_ st + Qtrunc d + 2) = Some x2 ->
  exists r, ReadHermite m d st = Some r /\
            (r == hermite_spec xm1 x0 x1 x2 (d - inject_Z (Qtrunc d)))%Q.
Proof.
  intros Hwf [Hd0 Hd1] Hm1 H0 H1 H2.
  pose proof (Qtrunc_nonneg d Hd0) as Hn.
  pose proof Hwf as (Hc & Hl & Hp & Hdl).
  unfold ReadHermite.
  rewrite float_to_int32_Some by (unfold INT32_MIN; lia). simpl.
  rewrite hermite_t by (assumption || lia).
  rewrite !load_int32_wf by (assumption || lia).
  replace (write_ptr_ st + Qtrunc d + max_size_ st + -1)
    with (write_ptr_ st + Qtrunc d - 1 + max_size_ st) by lia.
  replace (write_ptr_ st + Qtrunc d + max_size_ st + 0)
    with (write_ptr_ st + Qtrunc d + max_size_ st) by lia.
  replace (write_ptr_ st + Qtrunc d + max_size_ st + 1)
    with (write_ptr_ st + Qtrunc d + 1 + max_size_ st) by lia.
  replace (write_ptr_ st + Qtrunc d + max_size_ st + 2)
    with (write_ptr_ st + Qtrunc d + 2 + max_size_ st) by lia.
  rewrite !slot_add_cap by lia.
  rewrite Hm1, H0, H1, H2. simpl.
  eexists. split; [reflexivity|].
  unfold hermite_spec, int32_to_float. field.
Qed.

Lemma Allpass_wf (st : DelayLineView) (s g h : Q) (d : Z) :
  wf m st -> 0 <= d -> write_ptr_ st + d < size_modulus m ->
  slot st (write_ptr_ st + d) = Some h ->
  Allpass m s d g st =
  Some ((- (s + g * h) * g + h)%Q,
        set_write_ptr
          (set_line st (<[Z.to_nat (write_ptr_ st) := (s + g * h)%Q]> (line_ st)))
          ((write_ptr_ st - 1) mod max_size_ st)).
Proof.
  intros Hwf Hd0 Hd1 Hh. pose proof Hwf as (Hc & Hl & Hp & Hdl).
  unfold Allpass.
  rewrite to_size_small by lia.
  rewrite size_rem_Some by lia. simpl.
  rewrite load_slot, Hh by lia. simpl.
  rewrite Write_wf by assumption. reflexivity.
Qed.

(** The loop of [Reset] clears [n] slots from [i] on and nothing else. *)
Lemma Reset_loop_wf (n : nat) : forall (i : Z) (line : list Q),
  0 <= i -> i + Z.of_nat n <= Z.of_nat (length line) ->
  i + Z.of_nat n < size_modulus m ->
  exists line', Reset_loop m n i line = Some line' /\
    length line' = length line /\
    (forall j, i <= j < i + Z.of_nat n -> line' !! Z.to_nat j = Some 0%Q) /\
    (forall j, 0 <= j < i -> line' !! Z.to_nat j = line !! Z.to_nat j).
Proof.
  induction n as [|n IH]; intros i line Hi Hlen Hmod.
  - exists line. repeat split; trivial. intros j Hj. lia.
  - cbn [Reset_loop]. rewrite store_Some by lia. simpl.
    rewrite to_size_small by lia.
    destruct (IH (i + 1) (<[Z.to_nat i := 0%Q]> line)) as (l' & Hrun & Hl' & Hz & Hk).
    + lia.
    + rewrite length_insert. lia.
    + lia.
    + exists l'. split; [exact Hrun|]. rewrite length_insert in Hl'.
      split; [exact Hl'|]. split.
      * intros j Hj. destruct (Z.eq_dec j i) as [->|Hne].
        -- rewrite Hk by lia. apply list_lookup_insert_eq. lia.
        -- apply Hz. lia.
      * intros j Hj. rewrite Hk by lia. apply list_lookup_insert_ne. lia.
Qed.

Lemma Reset_wf (st : DelayLineView) :
  0 < max_size_ st < 2 ^ (size_bits m - 1) ->
  max_size_ st <= Z.of_nat (length (line_ st)) ->
  exists line',
    Reset m st = Some (set_delay (set_write_ptr (set_line st line') 0) 1) /\
    length line' = length (line_ st) /\
    (forall j, 0 <= j < max_size_ st -> line' !! Z.to_nat j = Some 0%Q).
Proof.
  intros Hc Hl. pose proof (size_modulus_half m).
  destruct (Reset_loop_wf (Z.to_nat (max_size_ st)) 0 (line_ st))
    as (l' & Hrun & Hlen & Hz & _); try lia.
  exists l'. unfold Reset. rewrite Hrun. simpl.
  split; [reflexivity|]. split; [exact Hlen|].
  intros j Hj. apply Hz. lia.
Qed.

Lemma Reset_preserves_wf (st st' : DelayLineView) :
  wf m st -> Reset m st = Some st' -> wf m st'.
Proof.
  intros (Hc & Hl & Hp & Hd) HR.
  destruct (Reset_wf st Hc Hl) as (l' & HR' & Hlen & _).
  rewrite HR' in HR. injection HR as <-.
  unfold wf. simpl. rewrite Hlen. lia.
Qed.

(** The value [SetDelay(size_t)] stores, for a [size_t] argument. *)
Lemma SetDelay_wf (st : DelayLineView) (n : Z) :
  wf m st -> 0 <= n ->
  SetDelay m n st =
  Some (set_delay (set_frac st 0%Q) (Z.min n (max_size_ st - 1))).
Proof.
  intros (Hc & _) Hn. unfold SetDelay. simpl.
  pose proof (size_modulus_half m).
  rewrite to_size_small by lia.
  destruct (Z.ltb_spec n (max_size_ st)).
  - rewrite Z.min_l by lia. reflexivity.
  - rewrite Z.min_r by lia. reflexivity.
Qed.

(** The value [SetDelay(float)] stores when the integer part is not negative. *)
Lemma SetDelay_float_nonneg (st : DelayLineView) (d : Q) :
  wf m st -> 0 <= Qtrunc d <= INT32_MAX ->
  SetDelay_float m d st =
  Some (set_delay (set_frac st (d - inject_Z (Qtrunc d))%Q)
                  (Z.min (Qtrunc d) (max_size_ st - 1))).
Proof.
  intros (Hc & _) Ht. unfold SetDelay_float.
  rewrite float_to_int32_Some by (unfold INT32_MIN; lia). simpl.
  pose proof (size_modulus_half m). pose proof (int32_below_half m).
  unfold INT32_MAX in Ht.
  rewrite !to_size_small by lia.
  destruct (Z.ltb_spec (Qtrunc d) (max_size_ st)).
  - rewrite Z.min_l by lia. reflexivity.
  - rewrite Z.min_r by lia. reflexivity.
Qed.

(** The value [SetDelay(float)] stores when the integer part is negative:
    its conversion to [size_t] is above every capacity. *)
Lemma SetDelay_float_neg (st : DelayLineView) (d : Q) :
  wf m st -> INT32_MIN <= Qtrunc d < 0 ->
  SetDelay_float m d st =
  Some (set_delay (set_frac st (d - inject_Z (Qtrunc d))%Q) (max_size_ st - 1)).
Proof.
  intros (Hc & _) Ht. unfold SetDelay_float.
  rewrite float_to_int32_Some by (unfold INT32_MAX; lia). simpl.
  pose proof (size_modulus_half m). pose proof (int32_below_half m).
  unfold INT32_MIN in Ht.
  assert (Hs : to_size m (Qtrunc d) = Qtrunc d + size_modulus m).
  { unfold to_size. symmetry. apply (Z.mod_unique _ _ (-1)); lia. }
  rewrite Hs. rewrite to_size_small by lia.
  destruct (Z.ltb_spec (Qtrunc d + size_modulus m) (max_size_ st)); [lia|].
  reflexivity.
Qed.

Lemma float_to_int32_inv (d : Q) (i : Z) :
  float_to_int32 d = Some i -> i = Qtrunc d /\ INT32_MIN <= i <= INT32_MAX.
Proof.
  unfold float_to_int32, int32_result, in_int32.
  destruct (Z.leb_spec INT32_MIN (Qtrunc d)); simpl; [|discriminate].
  destruct (Z.leb_spec (Qtrunc d) INT32_MAX); [|discriminate].
  intros [= <-]. lia.
Qed.

(** ** Every call keeps the object well formed *)

Lemma Write_preserves_wf (st st' : DelayLineView) (s : Q) :
  wf m st -> Write m s st = Some st' -> wf m st'.
Proof.
  intros Hwf HW. rewrite Write_wf in HW by exact Hwf. injection HW as <-.
  destruct Hwf as (Hc & Hl & Hp & Hd). unfold wf. simpl.
  rewrite length_insert.
  pose proof (Z.mod_pos_bound (write_ptr_ st - 1) (max_size_ st)). lia.
Qed.

Lemma SetDelay_float_preserves_wf (st st' : DelayLineView) (d : Q) :
  wf m st -> SetDelay_float m d st = Some st' -> wf m st'.
Proof.
  intros Hwf HS. pose proof Hwf as (Hc & Hl & Hp & Hd).
  destruct (float_to_int32 d) as [i|] eqn:Hi.
  - apply float_to_int32_inv in Hi as [-> Hr].
    destruct (Z.lt_ge_cases (Qtrunc d) 0).
    + rewrite SetDelay_float_neg in HS by (assumption || lia).
      injection HS as <-. unfold wf. simpl. lia.
    + rewrite SetDelay_float_nonneg in HS by (assumption || lia).
      injection HS as <-. unfold wf. simpl. lia.
  - unfold SetDelay_float in HS. rewrite Hi in HS. discriminate.
Qed.

(** The object [Allpass] leaves is the one its call of [Write] leaves. *)
Lemma Allpass_writes (s g o : Q) (d : Z) (st st' : DelayLineView) :
  Allpass m s d g st = Some (o, st') -> exists w, Write m w st = Some st'.
Proof.
  unfold Allpass. intros H.
  destruct (size_rem _ _) as [i|]; simpl in H; [|discriminate].
  destruct (load _ i) as [h|]; simpl in H; [|discriminate].
  destruct (Write m _ st) as [st1|] eqn:HW; simpl in H; [|discriminate].
  injection H as _ <-. eexists. exact HW.
Qed.

Lemma exec_preserves_wf (c : call) (st st' : DelayLineView) :
  wf m st -> exec m c st = Some st' -> wf m st'.
Proof.
  intros Hwf He. pose proof Hwf as (Hc & Hl & Hp & Hd).
  destruct c as [|d|d|s| |d|d|s d g]; cbn [exec] in He.
  - eapply Reset_preserves_wf; eassumption.
  - pose proof (Z.mod_pos_bound d (size_modulus m)) as Hb.
    pose proof (size_modulus_half m).
    rewrite SetDelay_wf in He by (assumption || (unfold to_size; lia)).
    injection He as <-. unfold wf, to_size. simpl. lia.
  - eapply SetDelay_float_preserves_wf; eassumption.
  - eapply Write_preserves_wf; eassumption.
  - destruct (Read m st); simpl in He; [|discriminate]. injection He as <-. exact Hwf.
  - destruct (Read_float m d st); simpl in He; [|discriminate].
    injection He as <-. exact Hwf.
  - destruct (ReadHermite m d st); simpl in He; [|discriminate].
    injection He as <-. exact Hwf.
  - destruct (Allpass m s (to_size m d) g st) as [[o st1]|] eqn:HA;
      simpl in He; [|discriminate].
    injection He as <-. apply Allpass_writes in HA as [w HW].
    eapply Write_preserves_wf; eassumption.
Qed.

Lemma run_preserves_wf (cs : list call) : forall (st st' : DelayLineView),
  wf m st -> run m cs st = Some st' -> wf m st'.
Proof.
  induction cs as [|c cs IH]; intros st st' Hwf Hr; cbn [run] in Hr.
  - injection Hr as <-. exact Hwf.
  - destruct (exec m c st) as [st1|] eqn:He; simpl in Hr; [|discriminate].
    eapply IH; [|exact Hr]. eapply exec_preserves_wf; eassumption.
Qed.

Lemma Init_wf (buf : list Q) (cap : Z) (st0 : DelayLineView) :
  0 < cap < 2 ^ (size_bits m - 1) -> cap <= Z.of_nat (length buf) ->
  exists st, Init m buf cap st0 = Some st /\ wf m st /\
             max_size_ st = cap /\ write_ptr_ st = 0 /\ delay_ st = 1.
Proof.
  intros Hc Hl. unfold Init.
  destruct (Reset_wf (mkDelayLineView (frac_ st0) (write_ptr_ st0) (delay_ st0) buf cap))
    as (l' & HR & Hlen & _); [exact Hc | exact Hl |].
  rewrite HR. eexists. split; [reflexivity|]. simpl in *.
  unfold wf. simpl. rewrite Hlen. repeat split; lia.
Qed.

End MethodFacts.

(** ** The specification *)


Lemma splits_trunc (d : Q) (i : Z) (f : Q) :
  splits d i f ->
  Qtrunc d = i /\ (0 <= d)%Q /\ (d - inject_Z i == f)%Q.
Proof.
  intros (Hd & Hf0 & Hf1 & Hi). split; [|split].
  - eapply Qtrunc_split_nonneg; eassumption.
  - rewrite Hd. apply Qle_trans with (inject_Z i + 0)%Q.
    + rewrite Qplus_0_r. change 0%Q with (inject_Z 0). rewrite <- Zle_Qle. exact Hi.
    + apply Qplus_le_r. exact Hf0.
  - rewrite Hd. ring.
Qed.

(** C1: on every well-formed object with [delay_ = d] and [frac_ = f], the
    zero-argument [Read()] returns
    [storage[(write_ptr_ + d) mod capacity] +
     (storage[(write_ptr_ + d + 1) mod capacity]
      - storage[(write_ptr_ + d) mod capacity]) * f],
    and the call leaves the object as it was. *)
Theorem C1_Read_stored_delay (m : data_model) (st : DelayLineView) (d : Z) (f : Q) :
  wf m st -> delay_ st = d -> frac_ st = f ->
  exists a b,
    line_ st !! Z.to_nat ((write_ptr_ st + d) mod max_size_ st) = Some a /\
    line_ st !! Z.to_nat ((write_ptr_ st + d + 1) mod max_size_ st) = Some b /\
    Read m st = Some (a + (b - a) * f)%Q /\
    exec m CallRead st = Some st.
Proof.
  intros Hwf <- <-.
  destruct (slot_pair m st (write_ptr_ st + delay_ st) Hwf) as (a & b & Ha & Hb).
  exists a, b. split; [exact Ha|]. split; [exact Hb|].
  pose proof (Read_wf m st a b Hwf Ha Hb) as HR. unfold lerp in HR.
  split; [exact HR|]. cbn [exec]. rewrite HR. reflexivity.
Qed.

Lemma C1_Read_stored_delay_witness :
  exists a b,
    line_ ramp8 !! Z.to_nat ((write_ptr_ ramp8 + 3) mod max_size_ ramp8) = Some a /\
    line_ ramp8 !! Z.to_nat ((write_ptr_ ramp8 + 3 + 1) mod max_size_ ramp8) = Some b /\
    Read ILP32 ramp8 = Some (a + (b - a) * (1 # 2))%Q /\
    exec ILP32 CallRead ramp8 = Some ramp8.
Proof.
  apply (C1_Read_stored_delay ILP32 ramp8 3 (1 # 2)); [wf_concrete | reflexivity | reflexivity].
Defined.

(** C3: for every well-formed object, sample [s], coefficient [g] and
    [size_t] delay [d] whose sum with the cursor does not wrap,
    [Allpass(s, d, g)] returns [h - g * (s + g * h)] where
    [h = storage[(write_ptr_ + d) mod capacity]], and the object it leaves is
    the one [Write(s + g * h)] leaves: the new sample at the old cursor, the
    cursor decremented modulo the capacity, the other fields untouched. *)
Theorem C3_Allpass (m : data_model) (st : DelayLineView) (s g : Q) (d : Z) :
  wf m st -> 0 <= d -> write_ptr_ st + d < size_modulus m ->
  exists h out st',
    line_ st !! Z.to_nat ((write_ptr_ st + d) mod max_size_ st) = Some h /\
    Allpass m s d g st = Some (out, st') /\
    (out == allpass_out s g h)%Q /\
    Write m (s + g * h)%Q st = Some st' /\
    line_ st' = <[Z.to_nat (write_ptr_ st) := (s + g * h)%Q]> (line_ st) /\
    write_ptr_ st' = (write_ptr_ st - 1) mod max_size_ st /\
    delay_ st' = delay_ st /\ frac_ st' = frac_ st /\
    max_size_ st' = max_size_ st.
Proof.
  intros Hwf Hd0 Hd1.
  destruct (slot_is_Some m st (write_ptr_ st + d) Hwf) as [h Hh].
  exists h. eexists. eexists. split; [exact Hh|].
  split; [apply (Allpass_wf m st s g h d); assumption|].
  split; [unfold allpass_out; ring|].
  split; [apply Write_wf; assumption|].
  simpl. repeat split; reflexivity.
Qed.

Lemma C3_Allpass_witness :
  exists h out st',
    line_ ramp8 !! Z.to_nat ((write_ptr_ ramp8 + 3) mod max_size_ ramp8) = Some h /\
    Allpass ILP32 1 3 (1 # 2) ramp8 = Some (out, st') /\
    (out == allpass_out 1 (1 # 2) h)%Q /\
    Write ILP32 (1 + (1 # 2) * h)%Q ramp8 = Some st' /\
    line_ st' = <[Z.to_nat (write_ptr_ ramp8) := (1 + (1 # 2) * h)%Q]> (line_ ramp8) /\
    write_ptr_ st' = (write_ptr_ ramp8 - 1) mod max_size_ ramp8 /\
    delay_ st' = delay_ ramp8 /\ frac_ st' = frac_ ramp8 /\
    max_size_ st' = max_size_ ramp8.
Proof.
  apply (C3_Allpass ILP32 ramp8 1 (1 # 2) 3); [wf_concrete | lia | vm_compute; reflexivity].
Defined.

(** C4: on a well-formed object the stored-delay setters saturate at the upper
    bound for every non-negative argument.  [SetDelay(size_t n)] sets
    [delay_ = min n (capacity - 1)] and [frac_ = 0]; [SetDelay(float d)],
    for [d] of integer part [i] and fraction [f = d - i] with [i]
    representable, sets [frac_ = f] and [delay_ = min i (capacity - 1)]; in
    particular [SetDelay(capacity + 10)] yields the delay [capacity - 1]. *)
Theorem C4_SetDelay_saturates (m : data_model) (st : DelayLineView) :
  wf m st ->
  (forall n : Z, 0 <= n ->
     exists st', SetDelay m n st = Some st' /\
       delay_ st' = Z.min n (max_size_ st - 1) /\ frac_ st' = 0%Q) /\
  (forall (d : Q) (i : Z) (f : Q), splits d i f -> i <= INT32_MAX ->
     exists st', SetDelay_float m d st = Some st' /\
       (frac_ st' == f)%Q /\ delay_ st' = Z.min i (max_size_ st - 1)) /\
  (exists st', SetDelay m (max_size_ st + 10) st = Some st' /\
     delay_ st' = max_size_ st - 1) /\
  (max_size_ st + 10 <= INT32_MAX ->
   exists st', SetDelay_float m (inject_Z (max_size_ st + 10)) st = Some st' /\
     delay_ st' = max_size_ st - 1).
Proof.
  intros Hwf. pose proof Hwf as (Hc & _).
  assert (Hfl : forall (d : Q) (i : Z) (f : Q), splits d i f -> i <= INT32_MAX ->
     exists st', SetDelay_float m d st = Some st' /\
       (frac_ st' == f)%Q /\ delay_ st' = Z.min i (max_size_ st - 1)).
  { intros d i f Hs Hi. pose proof Hs as (_ & _ & _ & Hi0).
    apply splits_trunc in Hs as (Ht & Hd0 & Hf). subst i.
    eexists. split; [apply SetDelay_float_nonneg; [exact Hwf | lia]|].
    simpl. split; [exact Hf | reflexivity]. }
  split; [|split; [exact Hfl|split]].
  - intros n Hn. eexists. split; [apply SetDelay_wf; assumption|].
    simpl. split; reflexivity.
  - eexists. split; [apply SetDelay_wf; [assumption | lia]|].
    simpl. lia.
  - intros Hr.
    destruct (Hfl (inject_Z (max_size_ st + 10)) (max_size_ st + 10) 0%Q)
      as (st' & HS & _ & Hd).
    + unfold splits. split; [rewrite Qplus_0_r; reflexivity|].
      split; [apply Qle_refl|]. split; [reflexivity | lia].
    + exact Hr.
    + exists st'. split; [exact HS|]. lia.
Qed.

Lemma C4_SetDelay_saturates_witness :
  (exists st', SetDelay ILP32 5 ramp8 = Some st' /\
     delay_ st' = Z.min 5 (max_size_ ramp8 - 1) /\ frac_ st' = 0%Q) /\
  (exists st', SetDelay_float ILP32 (19 # 2) ramp8 = Some st' /\
     (frac_ st' == 1 # 2)%Q /\ delay_ st' = Z.min 9 (max_size_ ramp8 - 1)) /\
  (exists st', SetDelay ILP32 (max_size_ ramp8 + 10) ramp8 = Some st' /\
     delay_ st' = max_size_ ramp8 - 1) /\
  (exists st', SetDelay_float ILP32 (inject_Z (max_size_ ramp8 + 10)) ramp8 = Some st' /\
     delay_ st' = max_size_ ramp8 - 1).
Proof.
  destruct (C4_SetDelay_saturates ILP32 ramp8) as (Hn & Hf & Hc & Hcf); [wf_concrete|].
  split; [apply Hn; lia|].
  split; [apply (Hf (19 # 2) 9 (1 # 2)); [splits_concrete | vm_compute; discriminate]|].
  split; [exact Hc|].
  apply Hcf. vm_compute. discriminate.
Defined.

Lemma splits_shift (d : Q) (i : Z) (f : Q) (n : Z) :
  splits d i f -> 0 <= n -> splits (d + inject_Z n) (i + n) f.
Proof.
  intros (Hd & Hf0 & Hf1 & Hi) Hn. unfold splits.
  repeat split; try assumption; try lia.
  rewrite Hd, inject_Z_plus. ring.
Qed.

Lemma lerp_frac_eq (a b f f' : Q) : (f == f')%Q -> (lerp a b f == lerp a b f')%Q.
Proof. intros H. unfold lerp. rewrite H. reflexivity. Qed.

(** C5: the one-argument [Read(float)] applies no clamp.  On a well-formed
    object, for every delay [d >= 0] of integer part [i] and fraction [f] it
    interpolates the slots at [(write_ptr_ + i) mod capacity] and the next
    one with the weight [f]; so for every [k >= 0] with [i + k * capacity]
    representable, [Read(d + k * capacity)] returns the value of [Read(d)];
    and the call leaves the object as it was. *)
Theorem C5_Read_float_aliases (m : data_model) (st : DelayLineView)
    (d : Q) (i : Z) (f : Q) (k : Z) :
  wf m st -> splits d i f -> 0 <= k -> i + k * max_size_ st <= INT32_MAX ->
  exists a b r r',
    line_ st !! Z.to_nat ((write_ptr_ st + i) mod max_size_ st) = Some a /\
    line_ st !! Z.to_nat ((write_ptr_ st + i + 1) mod max_size_ st) = Some b /\
    Read_float m d st = Some r /\ (r == a + (b - a) * f)%Q /\
    Read_float m (d + inject_Z (k * max_size_ st)) st = Some r' /\ (r' == r)%Q /\
    exec m (CallRead_float (d + inject_Z (k * max_size_ st))) st = Some st.
Proof.
  intros Hwf Hs Hk Hr. pose proof Hwf as (Hc & _).
  assert (Hkc : 0 <= k * max_size_ st) by nia.
  pose proof (splits_shift d i f (k * max_size_ st) Hs Hkc) as Hs'.
  apply splits_trunc in Hs as (Ht & Hd0 & Hf).
  apply splits_trunc in Hs' as (Ht' & Hd0' & Hf').
  destruct (slot_pair m st (write_ptr_ st + i) Hwf) as (a & b & Ha & Hb).
  assert (HR : Read_float m d st = Some (lerp a b (d - inject_Z (Qtrunc d)))).
  { apply Read_float_wf; try assumption; [|rewrite Ht; assumption ..].
    split; [exact Hd0 | lia]. }
  assert (HR' : Read_float m (d + inject_Z (k * max_size_ st)) st
                = Some (lerp a b (d + inject_Z (k * max_size_ st)
                                  - inject_Z (Qtrunc (d + inject_Z (k * max_size_ st)))))).
  { apply Read_float_wf; try assumption.
    - split; [exact Hd0' | lia].
    - rewrite Ht'. rewrite Z.add_assoc, slot_add_mul_cap by lia. exact Ha.
    - rewrite Ht'.
      replace (write_ptr_ st + (i + k * max_size_ st) + 1)
        with (write_ptr_ st + i + 1 + k * max_size_ st) by lia.
      rewrite slot_add_mul_cap by lia. exact Hb. }
  exists a, b. eexists. eexists.
  split; [exact Ha|]. split; [exact Hb|]. split; [exact HR|].
  split; [rewrite Ht; apply (lerp_frac_eq a b _ f Hf)|].
  split; [exact HR'|]. split.
  - rewrite Ht, Ht'. apply lerp_frac_eq. rewrite Hf, Hf'. reflexivity.
  - cbn [exec]. rewrite HR'. reflexivity.
Qed.

Lemma C5_Read_float_aliases_witness :
  exists a b r r',
    line_ ramp8 !! Z.to_nat ((write_ptr_ ramp8 + 2) mod max_size_ ramp8) = Some a /\
    line_ ramp8 !! Z.to_nat ((write_ptr_ ramp8 + 2 + 1) mod max_size_ ramp8) = Some b /\
    Read_float ILP32 (5 # 2) ramp8 = Some r /\ (r == a + (b - a) * (1 # 2))%Q /\
    Read_float ILP32 ((5 # 2) + inject_Z (3 * max_size_ ramp8)) ramp8 = Some r' /\
    (r' == r)%Q /\
    exec ILP32 (CallRead_float ((5 # 2) + inject_Z (3 * max_size_ ramp8))) ramp8
    = Some ramp8.
Proof.
  apply (C5_Read_float_aliases ILP32 ramp8 (5 # 2) 2 (1 # 2) 3);
    [wf_concrete | splits_concrete | lia | vm_compute; discriminate].
Defined.

(** C6: on a well-formed object, for every delay [d >= 0] of integer part
    [t0] and fraction [f] whose four indices are representable,
    [ReadHermite(d)] fetches [xm1, x0, x1, x2] at the ring positions
    [t - 1, t, t + 1, t + 2] (with [t = write_ptr_ + t0], all modulo the
    capacity) and returns [((a * f - bNeg) * f + c) * f + x0] with
    [c = (x1 - xm1) / 2], [v = x0 - x1], [w = c + v],
    [a = w + v + (x2 - x0) / 2], [bNeg = w + a]. *)
Theorem C6_ReadHermite (m : data_model) (st : DelayLineView)
    (d : Q) (t0 : Z) (f : Q) :
  wf m st -> splits d t0 f ->
  write_ptr_ st + t0 + max_size_ st + 2 <= INT32_MAX ->
  exists xm1 x0 x1 x2 r,
    line_ st !! Z.to_nat ((write_ptr_ st + t0 - 1) mod max_size_ st) = Some xm1 /\
    line_ st !! Z.to_nat ((write_ptr_ st + t0) mod max_size_ st) = Some x0 /\
    line_ st !! Z.to_nat ((write_ptr_ st + t0 + 1) mod max_size_ st) = Some x1 /\
    line_ st !! Z.to_nat ((write_ptr_ st + t0 + 2) mod max_size_ st) = Some x2 /\
    ReadHermite m d st = Some r /\
    (r == hermite_spec xm1 x0 x1 x2 f)%Q.
Proof.
  intros Hwf Hs Hr.
  apply splits_trunc in Hs as (Ht & Hd0 & Hf).
  destruct (slot_is_Some m st (write_ptr_ st + t0 - 1) Hwf) as [xm1 Hm1].
  destruct (slot_is_Some m st (write_ptr_ st + t0) Hwf) as [x0 H0].
  destruct (slot_is_Some m st (write_ptr_ st + t0 + 1) Hwf) as [x1 H1].
  destruct (slot_is_Some m st (write_ptr_ st + t0 + 2) Hwf) as [x2 H2].
  destruct (ReadHermite_wf m st d xm1 x0 x1 x2 Hwf) as (r & HR & Hr');
    try (rewrite Ht; assumption).
  { split; [exact Hd0 | rewrite Ht; exact Hr]. }
  exists xm1, x0, x1, x2, r. repeat (split; [assumption|]).
  rewrite Hr', Ht. unfold hermite_spec. rewrite Hf. reflexivity.
Qed.

Lemma C6_ReadHermite_witness :
  exists xm1 x0 x1 x2 r,
    line_ ramp8 !! Z.to_nat ((write_ptr_ ramp8 + 2 - 1) mod max_size_ ramp8) = Some xm1 /\
    line_ ramp8 !! Z.to_nat ((write_ptr_ ramp8 + 2) mod max_size_ ramp8) = Some x0 /\
    line_ ramp8 !! Z.to_nat ((write_ptr_ ramp8 + 2 + 1) mod max_size_ ramp8) = Some x1 /\
    line_ ramp8 !! Z.to_nat ((write_ptr_ ramp8 + 2 + 2) mod max_size_ ramp8) = Some x2 /\
    ReadHermite ILP32 (5 # 2) ramp8 = Some r /\
    (r == hermite_spec xm1 x0 x1 x2 (1 # 2))%Q.
Proof.
  apply (C6_ReadHermite ILP32 ramp8 (5 # 2) 2 (1 # 2));
    [wf_concrete | splits_concrete | vm_compute; discriminate].
Defined.

Lemma slot_cleared (m : data_model) (st : DelayLineView) (p : Z) :
  0 < max_size_ st ->
  (forall j, 0 <= j < max_size_ st -> line_ st !! Z.to_nat j = Some 0%Q) ->
  slot st p = Some 0%Q.
Proof.
  intros Hc Hz. unfold slot. apply Hz. apply Z.mod_pos_bound. exact Hc.
Qed.

(** C7: after any sequence of calls on a well-formed object, [Reset()] leaves
    every slot of the ring equal to zero, [write_ptr_ = 0] and [delay_ = 1],
    does not modify [frac_], and afterwards [Read()], [Read(d)] and
    [ReadHermite(d)], for every delay in range, return zero whatever the
    untouched [frac_] is. *)
Theorem C7_Reset_silences (m : data_model) (cs : list call)
    (st0 st : DelayLineView) :
  wf m st0 -> run m cs st0 = Some st ->
  exists st',
    Reset m st = Some st' /\
    (forall j, 0 <= j < max_size_ st' -> line_ st' !! Z.to_nat j = Some 0%Q) /\
    write_ptr_ st' = 0 /\ delay_ st' = 1 /\ frac_ st' = frac_ st /\
    max_size_ st' = max_size_ st /\
    (exists r, Read m st' = Some r /\ (r == 0)%Q) /\
    (forall d, read_in_range d ->
       exists r, Read_float m d st' = Some r /\ (r == 0)%Q) /\
    (forall d, hermite_in_range st' d ->
       exists r, ReadHermite m d st' = Some r /\ (r == 0)%Q).
Proof.
  intros Hwf0 Hrun.
  pose proof (run_preserves_wf m cs st0 st Hwf0 Hrun) as Hwf.
  pose proof Hwf as (Hc & Hl & _).
  destruct (Reset_wf m st Hc Hl) as (l' & HR & Hlen & Hz).
  eexists. split; [exact HR|].
  pose proof (Reset_preserves_wf m st _ Hwf HR) as Hwf'.
  set (st' := set_delay (set_write_ptr (set_line st l') 0) 1) in *.
  assert (Hz' : forall j, 0 <= j < max_size_ st' -> line_ st' !! Z.to_nat j = Some 0%Q)
    by exact Hz.
  assert (Hs : forall p, slot st' p = Some 0%Q).
  { intros p. apply (slot_cleared m); [exact (proj1 Hc) | exact Hz']. }
  split; [exact Hz'|]. repeat (split; [reflexivity|]).
  split; [|split].
  - eexists. split; [apply Read_wf; [exact Hwf' | apply Hs ..]|].
    unfold lerp. ring.
  - intros d Hd. eexists.
    split; [apply Read_float_wf; [exact Hwf' | exact Hd | apply Hs ..]|].
    unfold lerp. ring.
  - intros d Hd.
    destruct (ReadHermite_wf m st' d 0 0 0 0 Hwf' Hd) as (r & Hr & Hr0);
      try apply Hs.
    exists r. split; [exact Hr|]. rewrite Hr0. unfold hermite_spec. field.
Qed.

Lemma C7_Reset_silences_witness :
  exists st',
    Reset ILP32 (set_write_ptr (set_line ramp8 (<[0%nat := 9%Q]> (line_ ramp8))) 7)
    = Some st' /\
    write_ptr_ st' = 0 /\ delay_ st' = 1 /\ frac_ st' = (1 # 2)%Q /\
    (exists r, Read ILP32 st' = Some r /\ (r == 0)%Q) /\
    (exists r, Read_float ILP32 (5 # 2) st' = Some r /\ (r == 0)%Q) /\
    (exists r, ReadHermite ILP32 (5 # 2) st' = Some r /\ (r == 0)%Q).
Proof.
  destruct (C7_Reset_silences ILP32 [CallWrite 9; CallRead] ramp8
              (set_write_ptr (set_line ramp8 (<[0%nat := 9%Q]> (line_ ramp8))) 7))
    as (st' & HR & _ & Hp & Hd & Hf & Hm & Hr & Hrf & Hrh);
    [wf_concrete | vm_compute; reflexivity |].
  exists st'. split; [exact HR|].
  split; [exact Hp|]. split; [exact Hd|]. split; [exact Hf|].
  split; [exact Hr|]. split.
  - apply Hrf. split; vm_compute; discriminate.
  - apply Hrh. split; [vm_compute; discriminate|]. rewrite Hp, Hm. vm_compute. discriminate.
Defined.

(** C8: if the ring holds a linear ramp [alpha + beta * p] at the delays
    [p] of the fetched neighbourhood ([t0 - 1] to [t0 + 2] for a delay [d]
    of integer part [t0]), then [Read(d)] and [ReadHermite(d)] both return
    the ramp's value [alpha + beta * d] at the fractional delay [d]: both
    interpolation schemes are exact on linear data. *)
Theorem C8_linear_ramp_exact (m : data_model) (st : DelayLineView)
    (d : Q) (t0 : Z) (f alpha beta : Q) :
  wf m st -> splits d t0 f ->
  write_ptr_ st + t0 + max_size_ st + 2 <= INT32_MAX ->
  (forall p, t0 - 1 <= p <= t0 + 2 -> ramp_at st alpha beta p) ->
  exists r h,
    Read_float m d st = Some r /\ (r == alpha + beta * d)%Q /\
    ReadHermite m d st = Some h /\ (h == alpha + beta * d)%Q.
Proof.
  intros Hwf Hs Hr Hramp. pose proof Hwf as (Hc & Hl & Hp & _).
  pose proof Hs as (Hd & _ & _ & Hi).
  apply splits_trunc in Hs as (Ht & Hd0 & Hf).
  destruct (Hramp (t0 - 1)) as (xm1 & Hm1 & Em1); [lia|].
  destruct (Hramp t0) as (x0 & H0 & E0); [lia|].
  destruct (Hramp (t0 + 1)) as (x1 & H1 & E1); [lia|].
  destruct (Hramp (t0 + 2)) as (x2 & H2 & E2); [lia|].
  rewrite !Z.add_assoc in *.
  replace (write_ptr_ st + (t0 - 1)) with (write_ptr_ st + t0 - 1) in Hm1 by lia.
  rewrite inject_Z_plus in E1, E2.
  unfold Zminus in Em1. rewrite inject_Z_plus in Em1.
  exists (lerp x0 x1 (d - inject_Z (Qtrunc d))).
  destruct (ReadHermite_wf m st d xm1 x0 x1 x2 Hwf) as (h & HR & Hh);
    try (rewrite Ht; assumption).
  { split; [exact Hd0 | rewrite Ht; exact Hr]. }
  exists h. split; [|split; [|split; [exact HR|]]].
  - apply Read_float_wf; try assumption; try (rewrite Ht; assumption).
    split; [exact Hd0 | lia].
  - rewrite Ht. unfold lerp. rewrite E0, E1, Hd.
    change (inject_Z 1) with 1%Q. ring.
  - rewrite Hh, Ht. unfold hermite_spec. rewrite Em1, E0, E1, E2, Hd.
    generalize (inject_Z t0). intros q.
    change (inject_Z 1) with 1%Q. change (inject_Z 2) with 2%Q.
    change (inject_Z (- (1))) with (- (1))%Q. field.
Qed.

Lemma C8_linear_ramp_exact_witness :
  exists r h,
    Read_float ILP32 (5 # 2) ramp8 = Some r /\ (r == 0 + 1 * (5 # 2))%Q /\
    ReadHermite ILP32 (5 # 2) ramp8 = Some h /\ (h == 0 + 1 * (5 # 2))%Q.
Proof.
  apply (C8_linear_ramp_exact ILP32 ramp8 (5 # 2) 2 (1 # 2) 0 1);
    [wf_concrete | splits_concrete | vm_compute; discriminate |].
  intros p Hp.
  assert (Hcases : p = 1 \/ p = 2 \/ p = 3 \/ p = 4) by lia.
  destruct Hcases as [-> | [-> | [-> | ->]]];
    eexists; (split; [reflexivity | vm_compute; reflexivity]).
Defined.

(** One tick at the stored delay 1 with no fraction: the read returns the
    sample the tick has written. *)
Lemma tick_delay_1 (m : data_model) (st : DelayLineView) (s : Q) :
  wf m st -> delay_ st = 1 -> (frac_ st == 0)%Q ->
  exists out st',
    tick m s st = Some (out, st') /\ (out == s)%Q /\
    wf m st' /\ delay_ st' = 1 /\ frac_ st' = frac_ st /\
    max_size_ st' = max_size_ st /\
    write_ptr_ st' = (write_ptr_ st - 1) mod max_size_ st.
Proof.
  intros Hwf Hd Hf. pose proof Hwf as (Hc & Hl & Hp & _).
  pose proof (Write_wf m st s Hwf) as HW.
  pose proof (Write_preserves_wf m st _ s Hwf HW) as Hwf'.
  set (st' := set_write_ptr _ _) in *.
  assert (Ha : slot st' (write_ptr_ st' + delay_ st') = Some s).
  { unfold slot. simpl. rewrite Hd.
    rewrite Zplus_mod_idemp_l.
    replace (write_ptr_ st - 1 + 1) with (write_ptr_ st) by lia.
    rewrite Z.mod_small by lia.
    apply list_lookup_insert_eq. lia. }
  destruct (slot_is_Some m st' (write_ptr_ st' + delay_ st' + 1) Hwf') as [b Hb].
  exists (lerp s b (frac_ st')), st'.
  split.
  - unfold tick. rewrite HW. simpl.
    rewrite (Read_wf m st' s b Hwf' Ha Hb). reflexivity.
  - split; [unfold lerp; simpl; rewrite Hf; ring|].
    split; [exact Hwf'|]. split; [exact Hd|].
    repeat split; reflexivity.
Qed.

Lemma ticks_delay_1 (m : data_model) (samples : list Q) :
  forall st : DelayLineView,
  wf m st -> delay_ st = 1 -> (frac_ st == 0)%Q ->
  exists outs st',
    ticks m samples st = Some (outs, st') /\
    reads_most_recent samples outs /\
    write_ptr_ st' = (write_ptr_ st - Z.of_nat (length samples)) mod max_size_ st.
Proof.
  induction samples as [|s rest IH]; intros st Hwf Hd Hf.
  - exists [], st. split; [reflexivity|]. split; [constructor|].
    simpl. rewrite Z.sub_0_r. destruct Hwf as (Hc & _ & Hp & _).
    rewrite Z.mod_small by lia. reflexivity.
  - destruct (tick_delay_1 m st s Hwf Hd Hf)
      as (out & st1 & Ht & Ho & Hwf1 & Hd1 & Hf1 & Hm1 & Hp1).
    destruct (IH st1 Hwf1 Hd1) as (outs & st2 & Hts & Hos & Hp2).
    { rewrite Hf1. exact Hf. }
    exists (out :: outs), st2. split; [|split].
    + cbn [ticks]. rewrite Ht. simpl. rewrite Hts. reflexivity.
    + constructor; assumption.
    + rewrite Hp2, Hm1, Hp1. rewrite Zminus_mod_idemp_l.
      f_equal. cbn [length]. lia.
Qed.

(** C2, as the code has it: with the per-tick order [Write] then [Read()],
    at the stored delay 1 and no fraction, for every sequence of written
    samples the read of each tick returns the sample written in that tick
    (the most recent one), and the cursor does not drift: after [n] ticks it
    has moved back by [n] modulo the capacity, so it is where it was after
    two full cycles of the ring. *)
Theorem C2_write_then_read (m : data_model) (st : DelayLineView) (samples : list Q) :
  wf m st -> delay_ st = 1 -> (frac_ st == 0)%Q ->
  exists outs st',
    ticks m samples st = Some (outs, st') /\
    reads_most_recent samples outs /\
    write_ptr_ st' = (write_ptr_ st - Z.of_nat (length samples)) mod max_size_ st /\
    (Z.of_nat (length samples) = 2 * max_size_ st -> write_ptr_ st' = write_ptr_ st).
Proof.
  intros Hwf Hd Hf.
  destruct (ticks_delay_1 m samples st Hwf Hd Hf) as (outs & st' & Ht & Ho & Hp).
  exists outs, st'. repeat (split; [assumption|]).
  intros Hlen. rewrite Hp, Hlen. destruct Hwf as (Hc & _ & Hw & _).
  replace (write_ptr_ st - 2 * max_size_ st)
    with (write_ptr_ st + (-2) * max_size_ st) by lia.
  rewrite Z.mod_add by lia. apply Z.mod_small. exact Hw.
Qed.

Lemma C2_write_then_read_witness :
  exists outs st',
    ticks ILP32 one_to_eight ring4 = Some (outs, st') /\
    reads_most_recent one_to_eight outs /\
    write_ptr_ st' = (write_ptr_ ring4 - 8) mod max_size_ ring4 /\
    (8 = 2 * max_size_ ring4 -> write_ptr_ st' = write_ptr_ ring4).
Proof.
  apply (C2_write_then_read ILP32 ring4 one_to_eight);
    [wf_concrete | reflexivity | reflexivity].
Defined.

(** C2, as the specification words it, fails: on a ring of 4 slots at the
    stored delay 1, writing the eight distinct samples 1 to 8 and reading
    after each write, the second read returns 2, the sample just written,
    not 1, the second most recent one. *)
Lemma C2_second_most_recent_counterexample :
  Init ILP32 [5; 6; 7; 8]%Q 4 unconstructed ≫= SetDelay ILP32 1 = Some ring4 /\
  NoDup one_to_eight /\
  Z.of_nat (length one_to_eight) = 2 * max_size_ ring4 /\
  exists outs st',
    ticks ILP32 one_to_eight ring4 = Some (outs, st') /\
    outs !! 1%nat = Some 2%Q /\
    ~ reads_second_most_recent one_to_eight outs.
Proof.
  split; [reflexivity|].
  split.
  { unfold one_to_eight.
    repeat (constructor;
            [intros H; repeat (apply elem_of_cons in H as [H|H]; [discriminate H|]);
             inversion H|]).
    constructor. }
  split; [reflexivity|].
  eexists. eexists. split; [vm_compute; reflexivity|].
  split; [reflexivity|].
  intros H. specialize (H 0%nat 1%Q 2%Q eq_refl eq_refl).
  vm_compute in H. discriminate H.
Qed.

Lemma Qle_bool_1_trunc (d : Q) : Qle_bool 1 d = true -> 1 <= Qtrunc d /\ (0 <= d)%Q.
Proof.
  intros H. apply Qle_bool_iff in H.
  assert (H0 : (0 <= d)%Q) by (eapply Qle_trans; [|exact H]; discriminate).
  split; [|exact H0].
  rewrite Qtrunc_nonneg_floor by exact H0.
  apply Qfloor_resp_le in H. exact H.
Qed.

(** One call with a delay argument of at least 1 keeps the capacity and keeps
    the stored delay between 1 and the capacity minus 1. *)
Lemma exec_keeps_delay (m : data_model) (c : call) (st st' : DelayLineView) :
  wf m st -> 2 <= max_size_ st -> 1 <= delay_ st <= max_size_ st - 1 ->
  delay_arg_ge_1 m c = true -> exec m c st = Some st' ->
  max_size_ st' = max_size_ st /\ 1 <= delay_ st' <= max_size_ st' - 1.
Proof.
  intros Hwf Hc2 Hd Harg He. pose proof Hwf as (Hc & Hl & Hp & _).
  destruct c as [|d|d|s| |d|d|s d g]; cbn [exec delay_arg_ge_1] in He, Harg.
  - destruct (Reset_wf m st Hc Hl) as (l' & HR & _).
    rewrite HR in He. injection He as <-. simpl. lia.
  - apply Z.leb_le in Harg.
    rewrite SetDelay_wf in He by (assumption || lia).
    injection He as <-. simpl. lia.
  - apply Qle_bool_1_trunc in Harg as [Ht _].
    destruct (float_to_int32 d) as [i|] eqn:Hi.
    + apply float_to_int32_inv in Hi as [-> Hr].
      rewrite SetDelay_float_nonneg in He by (assumption || lia).
      injection He as <-. simpl. lia.
    + unfold SetDelay_float in He. rewrite Hi in He. discriminate.
  - rewrite Write_wf in He by exact Hwf. injection He as <-. simpl. lia.
  - destruct (Read m st); simpl in He; [|discriminate]. injection He as <-. lia.
  - destruct (Read_float m d st); simpl in He; [|discriminate]. injection He as <-. lia.
  - destruct (ReadHermite m d st); simpl in He; [|discriminate]. injection He as <-. lia.
  - destruct (Allpass m s (to_size m d) g st) as [[o st1]|] eqn:HA;
      simpl in He; [|discriminate].
    injection He as <-. apply Allpass_writes in HA as [w HW].
    rewrite Write_wf in HW by exact Hwf. injection HW as <-. simpl. lia.
Qed.

Lemma run_keeps_delay (m : data_model) (cs : list call) :
  forall st st' : DelayLineView,
  wf m st -> 2 <= max_size_ st -> 1 <= delay_ st <= max_size_ st - 1 ->
  forallb (delay_arg_ge_1 m) cs = true -> run m cs st = Some st' ->
  max_size_ st' = max_size_ st /\ 1 <= delay_ st' <= max_size_ st' - 1.
Proof.
  induction cs as [|c cs IH]; intros st st' Hwf Hc2 Hd Hargs Hr;
    cbn [run forallb] in Hr, Hargs.
  - injection Hr as <-. split; [reflexivity | exact Hd].
  - apply andb_prop in Hargs as [Harg Hargs].
    destruct (exec m c st) as [st1|] eqn:He; simpl in Hr; [|discriminate].
    destruct (exec_keeps_delay m c st st1 Hwf Hc2 Hd Harg He) as [Hm1 Hd1].
    pose proof (exec_preserves_wf m c st st1 Hwf He) as Hwf1.
    destruct (IH st1 st' Hwf1) as [Hm' Hd']; try assumption; [lia|].
    split; [lia | exact Hd'].
Qed.

(** On a well-formed object every call whose arguments are in range is
    defined. *)
Lemma exec_defined (m : data_model) (c : call) (st : DelayLineView) :
  wf m st -> call_in_range st c -> is_Some (exec m c st).
Proof.
  intros Hwf Hc. pose proof Hwf as (Hcap & Hl & Hp & _).
  destruct c as [|d|d|s| |d|d|s d g]; cbn [exec call_in_range] in *.
  - destruct (Reset_wf m st Hcap Hl) as (l' & -> & _). eexists. reflexivity.
  - eexists. reflexivity.
  - unfold SetDelay_float, float_to_int32, int32_result. rewrite Hc.
    eexists. reflexivity.
  - rewrite Write_wf by exact Hwf. eexists. reflexivity.
  - destruct (slot_pair m st (write_ptr_ st + delay_ st) Hwf) as (a & b & Ha & Hb).
    rewrite (Read_wf m st a b Hwf Ha Hb). eexists. reflexivity.
  - destruct (slot_pair m st (write_ptr_ st + Qtrunc d) Hwf) as (a & b & Ha & Hb).
    rewrite (Read_float_wf m st d a b Hwf Hc Ha Hb). eexists. reflexivity.
  - destruct (slot_is_Some m st (write_ptr_ st + Qtrunc d - 1) Hwf) as [xm1 Hm1].
    destruct (slot_is_Some m st (write_ptr_ st + Qtrunc d) Hwf) as [x0 H0].
    destruct (slot_is_Some m st (write_ptr_ st + Qtrunc d + 1) Hwf) as [x1 H1].
    destruct (slot_is_Some m st (write_ptr_ st + Qtrunc d + 2) Hwf) as [x2 H2].
    destruct (ReadHermite_wf m st d xm1 x0 x1 x2 Hwf Hc Hm1 H0 H1 H2) as (r & -> & _).
    eexists. reflexivity.
  - unfold Allpass. rewrite size_rem_Some by lia. simpl.
    rewrite load_slot by lia.
    destruct (slot_is_Some m st (to_size m (write_ptr_ st + to_size m d)) Hwf) as [h ->].
    simpl. rewrite Write_wf by exact Hwf. eexists. reflexivity.
Qed.

(** C9, as the code has it: for a capacity of at least 2, [Init] is defined,
    and in every state reached from the initialised object by any sequence
    of [Write], [Read], [ReadHermite], [Allpass], [Reset] and [SetDelay]
    calls whose delay arguments are at least 1, [0 <= write_ptr_ < capacity]
    and [1 <= delay_ <= capacity - 1] hold, the capacity being the one given
    to [Init]. *)
Theorem C9_invariants (m : data_model) (buf : list Q) (cap : Z)
    (st0 : DelayLineView) :
  2 <= cap < 2 ^ (size_bits m - 1) -> cap <= Z.of_nat (length buf) ->
  exists st1,
    Init m buf cap st0 = Some st1 /\
    forall (cs : list call) (st2 : DelayLineView),
      forallb (delay_arg_ge_1 m) cs = true ->
      run m cs st1 = Some st2 ->
      max_size_ st2 = cap /\
      0 <= write_ptr_ st2 < cap /\
      1 <= delay_ st2 <= cap - 1.
Proof.
  intros Hc Hl.
  destruct (Init_wf m buf cap st0) as (st & HI & Hwf & Hm & Hp & Hd); [lia | exact Hl |].
  exists st. split; [exact HI|]. intros cs st2 Hargs Hr.
  destruct (run_keeps_delay m cs st st2 Hwf) as [Hm2 Hd2]; try assumption; try lia.
  pose proof (run_preserves_wf m cs st st2 Hwf Hr) as (_ & _ & Hp2 & _).
  split; [lia|]. split; lia.
Qed.

Lemma C9_invariants_witness :
  exists st1 st2,
    Init ILP32 [5; 6; 7; 8]%Q 4 unconstructed = Some st1 /\
    run ILP32 session st1 = Some st2 /\
    max_size_ st2 = 4 /\
    0 <= write_ptr_ st2 < 4 /\
    1 <= delay_ st2 <= 4 - 1.
Proof.
  destruct (C9_invariants ILP32 [5; 6; 7; 8]%Q 4 unconstructed) as (st1 & HI & Hinv).
  - simpl. lia.
  - simpl. lia.
  - exists st1.
    assert (E : st1 = mkDelayLineView (7 # 3) 0 1 [0; 0; 0; 0]%Q 4).
    { vm_compute in HI. injection HI as <-. reflexivity. }
    eexists. split; [exact HI|]. split; [rewrite E; vm_compute; reflexivity|].
    apply (Hinv session); [reflexivity | rewrite E; vm_compute; reflexivity].
Defined.

(** C9, as the specification words it, fails for the capacity 1: [Init]
    leaves [delay_ = 1], above [capacity - 1 = 0], and [SetDelay(5)] then
    clamps it to 0, below 1. *)
Lemma C9_capacity_1_counterexample :
  exists st1 st2,
    Init ILP32 [5%Q] 1 unconstructed = Some st1 /\
    forallb (delay_arg_ge_1 ILP32) [CallSetDelay 5] = true /\
    run ILP32 [CallSetDelay 5] st1 = Some st2 /\
    ~ (1 <= delay_ st1 <= max_size_ st1 - 1) /\
    ~ (1 <= delay_ st2 <= max_size_ st2 - 1).
Proof.
  eexists. eexists. split; [reflexivity|]. split; [reflexivity|].
  split; [reflexivity|]. simpl. split; lia.
Qed.

(** Truncation of a negative number: the remainder is in [(-1, 0]], the
    integer part is negative from -1 down and zero above -1. *)
Lemma Qtrunc_negative (d : Q) :
  (d < 0)%Q ->
  (-1 < d - inject_Z (Qtrunc d))%Q /\ (d - inject_Z (Qtrunc d) <= 0)%Q /\
  Qtrunc d <= 0 /\
  ((d <= -1)%Q -> Qtrunc d <= -1) /\
  ((-1 < d)%Q -> Qtrunc d = 0).
Proof.
  intros Hd.
  assert (Hx : (0 <= - d)%Q).
  { apply Qlt_le_weak in Hd. apply Qopp_le_compat in Hd. exact Hd. }
  pose proof (Qtrunc_opp d) as Ht.
  rewrite Qtrunc_nonneg_floor in Ht by exact Hx.
  assert (Et : Qtrunc d = - Qfloor (- d)) by lia. clear Ht.
  pose proof (Qfloor_le (- d)) as Hlo.
  pose proof (Qlt_floor (- d)) as Hhi. rewrite inject_Z_plus in Hhi.
  change (inject_Z 1) with 1%Q in Hhi.
  pose proof (Qfloor_resp_le _ _ Hx) as Hf0. change (Qfloor 0) with 0 in Hf0.
  rewrite Et, inject_Z_opp.
  split; [|split; [|split; [lia|split]]].
  - generalize dependent (inject_Z (Qfloor (- d))). intros q Hlo Hhi. lra.
  - generalize dependent (inject_Z (Qfloor (- d))). intros q Hlo Hhi. lra.
  - intros H1. apply Qopp_le_compat in H1.
    apply Qfloor_resp_le in H1. change (Qfloor (- -1)) with 1 in H1. lia.
  - intros H1. apply Qopp_lt_compat in H1.
    assert (H2 : (inject_Z (Qfloor (- d)) < inject_Z 1)%Q).
    { eapply Qle_lt_trans; [exact Hlo | exact H1]. }
    rewrite <- Zlt_Qlt in H2. lia.
Qed.

(** C10, as the code has it: for every real [d <= -1] whose truncation is
    representable, [SetDelay(float d)] sets [delay_] to [capacity - 1], the
    negative truncated value converted to [size_t] being above every
    capacity; for [-1 < d < 0] the truncated value is 0 and [delay_] is set
    to 0.  In both cases [frac_] is the remainder [d - trunc d], in
    [(-1, 0]], the call is defined and the store and the cursor are
    untouched. *)
Theorem C10_SetDelay_float_negative (m : data_model) (st : DelayLineView) (d : Q) :
  wf m st -> (d < 0)%Q -> INT32_MIN <= Qtrunc d ->
  exists st',
    SetDelay_float m d st = Some st' /\
    frac_ st' = (d - inject_Z (Qtrunc d))%Q /\
    (-1 < frac_ st')%Q /\ (frac_ st' <= 0)%Q /\
    line_ st' = line_ st /\ write_ptr_ st' = write_ptr_ st /\
    max_size_ st' = max_size_ st /\
    ((d <= -1)%Q -> delay_ st' = max_size_ st - 1) /\
    ((-1 < d)%Q -> delay_ st' = 0 /\ (frac_ st' == d)%Q).
Proof.
  intros Hwf Hd Hr. pose proof Hwf as (Hc & _).
  destruct (Qtrunc_negative d Hd) as (Hf1 & Hf0 & Ht0 & Hle & Hgt).
  destruct (Z.lt_ge_cases (Qtrunc d) 0) as [Hneg|Hzero].
  - eexists. split; [apply SetDelay_float_neg; [exact Hwf | lia]|].
    simpl. split; [reflexivity|]. split; [exact Hf1|]. split; [exact Hf0|].
    do 3 (split; [reflexivity|]). split.
    + intros _. reflexivity.
    + intros H1. apply Hgt in H1. lia.
  - assert (Hz : Qtrunc d = 0) by lia.
    eexists. split; [apply SetDelay_float_nonneg; [exact Hwf | unfold INT32_MAX; lia]|].
    simpl. split; [reflexivity|]. split; [exact Hf1|]. split; [exact Hf0|].
    do 3 (split; [reflexivity|]). split.
    + intros H1. apply Hle in H1. lia.
    + intros _. rewrite Hz. split; [lia|]. unfold inject_Z. ring.
Qed.

Lemma C10_SetDelay_float_negative_witness :
  exists st',
    SetDelay_float ILP32 (-5 # 2) ramp8 = Some st' /\
    frac_ st' = ((-5 # 2) - inject_Z (Qtrunc (-5 # 2)))%Q /\
    line_ st' = line_ ramp8 /\ write_ptr_ st' = write_ptr_ ramp8 /\
    delay_ st' = max_size_ ramp8 - 1.
Proof.
  destruct (C10_SetDelay_float_negative ILP32 ramp8 (-5 # 2))
    as (st' & HS & Hf & _ & _ & Hl & Hp & _ & Hle & _);
    [wf_concrete | reflexivity | vm_compute; discriminate |].
  exists st'. repeat (split; [assumption|]).
  apply Hle. vm_compute. discriminate.
Defined.

(** C10, as stated, fails strictly between -1 and 0: the truncation of
    [-1/2] is 0, not negative, and [SetDelay(-0.5f)] on a ring of 8 slots
    sets [delay_] to 0, not to 7. *)
Lemma C10_between_minus_1_and_0_counterexample :
  wf ILP32 ramp8 /\ ((-1 # 2) < 0)%Q /\ in_int32 (Qtrunc (-1 # 2)) = true /\
  exists st',
    SetDelay_float ILP32 (-1 # 2) ramp8 = Some st' /\
    delay_ st' = 0 /\ delay_ st' <> max_size_ ramp8 - 1.
Proof.
  split; [wf_concrete|]. split; [reflexivity|]. split; [reflexivity|].
  eexists. split; [vm_compute; reflexivity|].
  split; [reflexivity | vm_compute; discriminate].
Qed.

(** ** The phasor *)

Lemma fmax_0_cases (f : Q) :
  ((0 <= f)%Q /\ fmax f 0 = f) \/ ((f < 0)%Q /\ fmax f 0 = 0%Q).
Proof.
  unfold fmax. destruct (Qle_bool 0 f) eqn:E.
  - left. apply Qle_bool_iff in E. split; [exact E | reflexivity].
  - right. split; [|reflexivity]. apply Qnot_le_lt. intros H.
    apply Qle_bool_iff in H. congruence.
Qed.

(** X1: at a positive sample rate [SetFreq] is defined, clamps a negative
    frequency to zero and keeps a non-negative one as it is; the increment
    is the stored frequency over the sample rate, never negative, zero for
    a frequency of zero or below, and at most 1 for a frequency up to the
    sample rate; the phase and the sample rate are untouched. *)
Theorem X1_Phasor_SetFreq (p : Phasor) (f : Q) :
  (0 < sample_rate_ p)%Q ->
  exists p',
    Phasor_SetFreq f p = Some p' /\
    sample_rate_ p' = sample_rate_ p /\ phs_ p' = phs_ p /\
    (0 <= freq_ p')%Q /\ (0 <= inc_ p')%Q /\
    (inc_ p' * sample_rate_ p == freq_ p')%Q /\
    ((0 <= f)%Q -> freq_ p' = f) /\
    ((f <= 0)%Q -> (freq_ p' == 0)%Q /\ (inc_ p' == 0)%Q) /\
    ((f <= sample_rate_ p)%Q -> (inc_ p' <= 1)%Q).
Proof.
  intros Hsr. unfold Phasor_SetFreq.
  assert (Hne : ~ (sample_rate_ p == 0)%Q) by (intros E; rewrite E in Hsr; discriminate Hsr).
  destruct (Qeq_bool (sample_rate_ p) 0) eqn:E.
  { apply Qeq_bool_iff in E. contradiction. }
  eexists. split; [reflexivity|]. simpl.
  assert (Hf0 : (0 <= fmax f 0)%Q).
  { destruct (fmax_0_cases f) as [[H ->]|[_ ->]]; [exact H | apply Qle_refl]. }
  split; [reflexivity|]. split; [reflexivity|]. split; [exact Hf0|].
  split; [|split; [|split; [|split]]].
  - apply Qle_shift_div_l; [exact Hsr|]. rewrite Qmult_0_l. exact Hf0.
  - field. exact Hne.
  - intros H. destruct (fmax_0_cases f) as [[_ ->]|[Hlt _]]; [reflexivity|].
    exfalso. apply (Qlt_irrefl f). eapply Qlt_le_trans; eassumption.
  - intros H.
    assert (Hz : (fmax f 0 == 0)%Q).
    { destruct (fmax_0_cases f) as [[H0 ->]|[_ ->]]; [|reflexivity].
      apply Qle_antisym; assumption. }
    split; [exact Hz|]. rewrite Hz. field. exact Hne.
  - intros H. apply Qle_shift_div_r; [exact Hsr|]. rewrite Qmult_1_l.
    destruct (fmax_0_cases f) as [[_ ->]|[_ ->]]; [exact H|].
    apply Qlt_le_weak. exact Hsr.
Qed.

Lemma X1_Phasor_SetFreq_witness :
  exists p',
    Phasor_SetFreq (- (440)) phasor48k = Some p' /\
    phs_ p' = phs_ phasor48k /\ (freq_ p' == 0)%Q /\ (inc_ p' == 0)%Q.
Proof.
  destruct (X1_Phasor_SetFreq phasor48k (- (440)))
    as (p' & HS & _ & Hp & _ & _ & _ & _ & Hneg & _); [reflexivity|].
  exists p'. split; [exact HS|]. split; [exact Hp|].
  apply Hneg. vm_compute. discriminate.
Defined.

(** One call of [Process] on a phase and an increment in [[0, 1]]. *)
Lemma Phasor_Process_range (p : Phasor) :
  (0 <= phs_ p)%Q -> (phs_ p <= 1)%Q -> (0 <= inc_ p)%Q -> (inc_ p <= 1)%Q ->
  fst (Phasor_Process p) = phs_ p /\
  (0 <= phs_ (snd (Phasor_Process p)))%Q /\
  (phs_ (snd (Phasor_Process p)) <= 1)%Q /\
  inc_ (snd (Phasor_Process p)) = inc_ p.
Proof.
  intros H0 H1 Hi0 Hi1. unfold Phasor_Process. simpl.
  split; [reflexivity|].
  destruct (Qle_bool (phs_ p + inc_ p) 1) eqn:E.
  - apply Qle_bool_iff in E. repeat split; [lra | exact E].
  - assert (Hgt : (1 < phs_ p + inc_ p)%Q).
    { apply Qnot_le_lt. intros H. apply Qle_bool_iff in H. congruence. }
    repeat split; lra.
Qed.

(** X2: with the phase and the increment in [[0, 1]] (a frequency between
    zero and the sample rate), every value [Process] returns over any
    number of calls is in [[0, 1]], the phase stays in [[0, 1]] and the
    increment is not changed. *)
Theorem X2_Phasor_range (n : nat) (p : Phasor) :
  (0 <= phs_ p)%Q -> (phs_ p <= 1)%Q -> (0 <= inc_ p)%Q -> (inc_ p <= 1)%Q ->
  Forall (fun o => (0 <= o)%Q /\ (o <= 1)%Q) (fst (Phasor_run n p)) /\
  length (fst (Phasor_run n p)) = n /\
  (0 <= phs_ (snd (Phasor_run n p)))%Q /\
  (phs_ (snd (Phasor_run n p)) <= 1)%Q /\
  inc_ (snd (Phasor_run n p)) = inc_ p.
Proof.
  revert p. induction n as [|n IH]; intros p H0 H1 Hi0 Hi1.
  - simpl. repeat split; try assumption. constructor.
  - destruct (Phasor_Process_range p H0 H1 Hi0 Hi1) as (Ho & Hp0 & Hp1 & Hinc).
    cbn [Phasor_run fst snd].
    destruct (IH (snd (Phasor_Process p))) as (Hall & Hlen & Hq0 & Hq1 & Hqi);
      try assumption; try (rewrite Hinc; assumption).
    split; [|split; [|split; [|split]]]; try assumption.
    + constructor; [rewrite Ho; split; assumption | exact Hall].
    + cbn [length]. rewrite Hlen. reflexivity.
Qed.

Lemma X2_Phasor_range_witness :
  Forall (fun o => (0 <= o)%Q /\ (o <= 1)%Q) (fst (Phasor_run 9 phasor48k)) /\
  length (fst (Phasor_run 9 phasor48k)) = 9%nat /\
  (0 <= phs_ (snd (Phasor_run 9 phasor48k)))%Q /\
  (phs_ (snd (Phasor_run 9 phasor48k)) <= 1)%Q /\
  inc_ (snd (Phasor_run 9 phasor48k)) = inc_ phasor48k.
Proof.
  apply (X2_Phasor_range 9 phasor48k); vm_compute; discriminate.
Defined.

(** One call of [Process] adds the increment and takes off 0 or 1. *)
Lemma Phasor_Process_step (p : Phasor) :
  exists e : Z,
    0 <= e <= 1 /\
    (phs_ (snd (Phasor_Process p)) == phs_ p + inc_ p - inject_Z e)%Q /\
    inc_ (snd (Phasor_Process p)) = inc_ p /\
    fst (Phasor_Process p) = phs_ p.
Proof.
  unfold Phasor_Process. simpl.
  destruct (Qle_bool (phs_ p + inc_ p) 1).
  - exists 0. split; [lia|]. split; [|split; reflexivity].
    change (inject_Z 0) with 0%Q. ring.
  - exists 1. split; [lia|]. split; [|split; reflexivity].
    change (inject_Z 1) with 1%Q. reflexivity.
Qed.

(** X3: the phasor accumulates without drift.  Whatever the phase and the
    increment, the value returned by the call number [i] (from 0) is the
    initial phase plus [i] increments, minus a whole number of wraps between
    0 and [i]. *)
Theorem X3_Phasor_accumulates (n : nat) : forall (p : Phasor) (i : nat) (o : Q),
  fst (Phasor_run n p) !! i = Some o ->
  exists k : Z,
    0 <= k <= Z.of_nat i /\
    (o == phs_ p + inject_Z (Z.of_nat i) * inc_ p - inject_Z k)%Q.
Proof.
  induction n as [|n IH]; intros p i o Ho.
  - simpl in Ho. discriminate Ho.
  - cbn [Phasor_run fst snd] in Ho.
    destruct (Phasor_Process_step p) as (e & He & Hp & Hi & Hout).
    destruct i as [|i].
    + simpl in Ho. injection Ho as <-. exists 0. split; [lia|].
      change (inject_Z (Z.of_nat 0)) with 0%Q. change (inject_Z 0) with 0%Q. ring.
    + simpl in Ho. destruct (IH _ _ _ Ho) as (k & Hk & Hok).
      exists (k + e). split; [lia|].
      rewrite Hok, Hp, ?Hi. rewrite Nat2Z.inj_succ. unfold Z.succ.
      rewrite !inject_Z_plus. change (inject_Z 1) with 1%Q.
      generalize (inject_Z (Z.of_nat i)), (inject_Z k), (inject_Z e).
      intros qi qk qe. cbn [inc_]. ring.
Qed.

Lemma X3_Phasor_accumulates_witness :
  exists (o : Q) (k : Z),
    fst (Phasor_run 9 phasor48k) !! 6%nat = Some o /\
    0 <= k <= Z.of_nat 6 /\
    (o == phs_ phasor48k + inject_Z (Z.of_nat 6) * inc_ phasor48k - inject_Z k)%Q.
Proof.
  assert (H : fst (Phasor_run 9 phasor48k) !! 6%nat = Some (12288 # 16384))
    by (vm_compute; reflexivity).
  destruct (X3_Phasor_accumulates 9 phasor48k 6 (12288 # 16384) H) as (k & Hk & Ho).
  exists (12288 # 16384), k. split; [exact H|]. split; assumption.
Defined.

(** X4: an increment above 1 (a frequency above the sample rate) is not
    brought back by the single subtraction of [Process]: from a
    non-negative phase, each call raises the phase by [inc_ - 1], so after
    [n] calls it is the initial phase plus [n * (inc_ - 1)], without
    bound. *)
Theorem X4_Phasor_escapes (n : nat) : forall p : Phasor,
  (0 <= phs_ p)%Q -> (1 < inc_ p)%Q ->
  (phs_ (snd (Phasor_run n p))
   == phs_ p + inject_Z (Z.of_nat n) * (inc_ p - 1))%Q /\
  (phs_ p <= phs_ (snd (Phasor_run n p)))%Q.
Proof.
  induction n as [|n IH]; intros p H0 Hi.
  - simpl. split; [|apply Qle_refl].
    change (inject_Z 0) with 0%Q. ring.
  - cbn [Phasor_run fst snd].
    assert (Hstep : (phs_ (snd (Phasor_Process p)) == phs_ p + inc_ p - 1)%Q
                    /\ inc_ (snd (Phasor_Process p)) = inc_ p).
    { unfold Phasor_Process. simpl.
      destruct (Qle_bool (phs_ p + inc_ p) 1) eqn:E; [|split; reflexivity].
      apply Qle_bool_iff in E. lra. }
    destruct Hstep as [Hp Hinc].
    destruct (IH (snd (Phasor_Process p))) as [Heq Hle].
    + rewrite Hp. lra.
    + rewrite Hinc. exact Hi.
    + rewrite Hinc in Heq. rewrite Hp in Heq, Hle.
      split; [|lra].
      rewrite Heq. rewrite Nat2Z.inj_succ. unfold Z.succ.
      rewrite inject_Z_plus. change (inject_Z 1) with 1%Q.
      generalize (inject_Z (Z.of_nat n)). intros qn. ring.
Qed.

Lemma X4_Phasor_escapes_witness :
  (phs_ (snd (Phasor_run 4 (mkPhasor 48000 72000 (3 # 2) 0)))
   == 0 + inject_Z (Z.of_nat 4) * ((3 # 2) - 1))%Q /\
  (0 <= phs_ (snd (Phasor_run 4 (mkPhasor 48000 72000 (3 # 2) 0))))%Q.
Proof.
  apply (X4_Phasor_escapes 4 (mkPhasor 48000 72000 (3 # 2) 0)).
  - vm_compute. discriminate.
  - reflexivity.
Defined.

(** ** The ring as a shift register *)

Lemma ring_pos_distinct (wp k cap : Z) :
  0 <= wp < cap -> 1 <= k < cap -> (wp + k) mod cap <> wp.
Proof.
  intros Hp Hk. destruct (Z.lt_ge_cases (wp + k) cap) as [Hlt|Hge].
  - rewrite Z.mod_small by lia. lia.
  - replace (wp + k) with (wp + k - cap + 1 * cap) by lia.
    rewrite Z.mod_add by lia. rewrite Z.mod_small by lia. lia.
Qed.

(** What one [Write] does to the slots counted from the cursor. *)
Lemma Write_shift (m : data_model) (st st' : DelayLineView) (s : Q) :
  wf m st -> Write m s st = Some st' ->
  slot st' (write_ptr_ st' + 1) = Some s /\
  (forall k, 1 <= k < max_size_ st ->
     slot st' (write_ptr_ st' + (k + 1)) = slot st (write_ptr_ st + k)).
Proof.
  intros Hwf HW. pose proof Hwf as (Hc & Hl & Hp & _).
  rewrite Write_wf in HW by exact Hwf. injection HW as <-.
  unfold slot. simpl. split.
  - rewrite Zplus_mod_idemp_l.
    replace (write_ptr_ st - 1 + 1) with (write_ptr_ st) by lia.
    rewrite Z.mod_small by lia. apply list_lookup_insert_eq. lia.
  - intros k Hk. rewrite Zplus_mod_idemp_l.
    replace (write_ptr_ st - 1 + (k + 1)) with (write_ptr_ st + k) by lia.
    apply list_lookup_insert_ne.
    pose proof (ring_pos_distinct (write_ptr_ st) k (max_size_ st) Hp Hk).
    pose proof (Z.mod_pos_bound (write_ptr_ st + k) (max_size_ st)). lia.
Qed.

(** One more tick ages the delayed sample by one write. *)
Lemma delayed_shift (m : data_model) (st st1 : DelayLineView) (w : Q)
    (ws : list Q) (d t : nat) :
  wf m st -> Write m w st = Some st1 ->
  (1 <= d)%nat -> Z.of_nat d <= max_size_ st ->
  delayed st d (w :: ws) (S t) = delayed st1 d ws t.
Proof.
  intros Hwf HW Hd1 Hdc.
  destruct (Write_shift m st st1 w Hwf HW) as [Hnew Hold].
  unfold delayed.
  destruct (Nat.leb_spec d t) as [Hle|Hgt].
  - destruct (Nat.leb_spec d (S t)); [|lia].
    replace (S t - d)%nat with (S (t - d)) by lia. reflexivity.
  - destruct (Nat.leb_spec d (S t)) as [Hle'|Hgt'].
    + assert (d = S t) by lia. subst d.
      replace (S t - S t)%nat with 0%nat by lia.
      replace (S t - t)%nat with 1%nat by lia.
      simpl. symmetry. exact Hnew.
    + replace (Z.of_nat (d - t)) with (Z.of_nat (d - S t) + 1) by lia.
      symmetry. apply Hold. lia.
Qed.

(** X5: the ring with its backward cursor is a shift register.  On a
    well-formed object [Write(s)] is defined; afterwards the slot one
    forward of the cursor holds [s], every sample that was [k] slots forward
    of the cursor ([1 <= k < capacity]) is [k + 1] slots forward of it, the
    oldest one being dropped, and the stored delay and fraction are
    untouched. *)
Theorem X5_Write_shift_register (m : data_model) (st : DelayLineView) (s : Q) :
  wf m st ->
  exists st',
    Write m s st = Some st' /\
    slot st' (write_ptr_ st' + 1) = Some s /\
    (forall k, 1 <= k < max_size_ st ->
       slot st' (write_ptr_ st' + (k + 1)) = slot st (write_ptr_ st + k)) /\
    delay_ st' = delay_ st /\ frac_ st' = frac_ st /\
    max_size_ st' = max_size_ st.
Proof.
  intros Hwf. pose proof (Write_wf m st s Hwf) as HW.
  eexists. split; [exact HW|].
  destruct (Write_shift m st _ s Hwf HW) as [Hnew Hold].
  split; [exact Hnew|]. split; [exact Hold|]. repeat split; reflexivity.
Qed.

Lemma X5_Write_shift_register_witness :
  exists st',
    Write ILP32 50 ring4_used = Some st' /\
    slot st' (write_ptr_ st' + 1) = Some 50%Q /\
    slot st' (write_ptr_ st' + (1 + 1)) = slot ring4_used (write_ptr_ ring4_used + 1) /\
    slot st' (write_ptr_ st' + (3 + 1)) = slot ring4_used (write_ptr_ ring4_used + 3).
Proof.
  destruct (X5_Write_shift_register ILP32 ring4_used 50)
    as (st' & HW & Hnew & Hold & _); [wf_concrete|].
  exists st'. split; [exact HW|]. split; [exact Hnew|].
  split; apply Hold; simpl; lia.
Defined.

Lemma run_writes_cons (m : data_model) (x : Q) (xs : list Q) (st : DelayLineView) :
  run m (CallWrite <$> (x :: xs)) st = Write m x st ≫= run m (CallWrite <$> xs).
Proof. reflexivity. Qed.

(** X6: after writing the samples [xs] in order, the slot [k] forward of the
    cursor ([1 <= k <= capacity]) holds the sample written [k] writes ago
    when at least [k] were written, and otherwise what was [k - length xs]
    slots forward of the cursor before; so after [capacity] or more writes
    the ring holds the last [capacity] samples and nothing else. *)
Theorem X6_Write_history (m : data_model) (xs : list Q) :
  forall st : DelayLineView,
  wf m st ->
  exists st',
    run m (CallWrite <$> xs) st = Some st' /\
    wf m st' /\ max_size_ st' = max_size_ st /\
    forall k : nat, (1 <= k)%nat -> Z.of_nat k <= max_size_ st ->
      slot st' (write_ptr_ st' + Z.of_nat k) = delayed st k xs (length xs).
Proof.
  induction xs as [|x rest IH]; intros st Hwf.
  - exists st. split; [reflexivity|]. split; [exact Hwf|]. split; [reflexivity|].
    intros k Hk1 Hkc. unfold delayed. simpl.
    destruct (Nat.leb_spec k 0); [lia|].
    rewrite Nat.sub_0_r. reflexivity.
  - pose proof (Write_wf m st x Hwf) as HW.
    pose proof (Write_preserves_wf m st _ x Hwf HW) as Hwf1.
    set (st1 := set_write_ptr _ _) in *.
    destruct (IH st1 Hwf1) as (st' & Hrun & Hwf' & Hcap & Hk).
    exists st'. split; [rewrite run_writes_cons, HW; exact Hrun|].
    split; [exact Hwf'|]. split; [exact Hcap|].
    intros k Hk1 Hkc. rewrite (Hk k Hk1 Hkc). cbn [length].
    symmetry. apply (delayed_shift m st st1 x rest k); assumption.
Qed.

Lemma X6_Write_history_witness :
  exists st',
    run ILP32 (CallWrite <$> [1; 2; 3; 4; 5; 6]%Q) ring4_used = Some st' /\
    slot st' (write_ptr_ st' + 1) = Some 6%Q /\
    slot st' (write_ptr_ st' + 4) = Some 3%Q.
Proof.
  destruct (X6_Write_history ILP32 [1; 2; 3; 4; 5; 6]%Q ring4_used)
    as (st' & Hrun & _ & _ & Hk); [wf_concrete|].
  exists st'. split; [exact Hrun|]. split.
  - apply (Hk 1%nat); simpl; lia.
  - apply (Hk 4%nat); simpl; lia.
Defined.

(** X7: in the per-tick order [Read()] then [Write], with a stored whole
    delay [d] between 1 and the capacity and no fraction, the delay line
    delays by exactly [d] samples: the read of tick [t] returns the sample
    written at tick [t - d], and for [t < d] the sample the ring held
    [d - t] slots forward of the cursor before the first tick. *)
Theorem X7_Read_then_Write_delays (m : data_model) (xs : list Q) :
  forall st : DelayLineView,
  wf m st -> 1 <= delay_ st <= max_size_ st -> (frac_ st == 0)%Q ->
  exists outs st',
    ticks_read_write m xs st = Some (outs, st') /\
    length outs = length xs /\
    forall t : nat, (t < length xs)%nat ->
      exists o h,
        outs !! t = Some o /\
        delayed st (Z.to_nat (delay_ st)) xs t = Some h /\
        (o == h)%Q.
Proof.
  induction xs as [|x rest IH]; intros st Hwf Hd Hf.
  - exists [], st. split; [reflexivity|]. split; [reflexivity|].
    intros t Ht. simpl in Ht. lia.
  - destruct (slot_pair m st (write_ptr_ st + delay_ st) Hwf) as (a & b & Ha & Hb).
    pose proof (Read_wf m st a b Hwf Ha Hb) as HR.
    pose proof (Write_wf m st x Hwf) as HW.
    pose proof (Write_preserves_wf m st _ x Hwf HW) as Hwf1.
    set (st1 := set_write_ptr _ _) in *.
    destruct (IH st1 Hwf1 Hd Hf) as (outs & st' & Ht & Hlen & Hall).
    exists (lerp a b (frac_ st) :: outs), st'. split; [|split].
    + cbn [ticks_read_write]. unfold tick_read_write.
      rewrite HR. simpl. rewrite HW. simpl. rewrite Ht. reflexivity.
    + cbn [length]. rewrite Hlen. reflexivity.
    + intros [|t] Hlt.
      * exists (lerp a b (frac_ st)), a. split; [reflexivity|]. split.
        -- unfold delayed. destruct (Nat.leb_spec (Z.to_nat (delay_ st)) 0); [lia|].
           rewrite Nat.sub_0_r, Z2Nat.id by lia. exact Ha.
        -- unfold lerp. rewrite Hf. ring.
      * cbn [length] in Hlt.
        destruct (Hall t) as (o & h & Ho & Hh & Hoh); [lia|].
        exists o, h. split; [exact Ho|]. split; [|exact Hoh].
        rewrite <- Hh.
        apply (delayed_shift m st st1 x rest (Z.to_nat (delay_ st)) t);
          try assumption; lia.
Qed.

Lemma X7_Read_then_Write_delays_witness :
  exists outs st',
    ticks_read_write ILP32 [1; 2; 3; 4; 5]%Q ring4_used = Some (outs, st') /\
    (exists o, outs !! 0%nat = Some o /\ (o == 30)%Q) /\
    (exists o, outs !! 1%nat = Some o /\ (o == 20)%Q) /\
    (exists o, outs !! 2%nat = Some o /\ (o == 1)%Q) /\
    (exists o, outs !! 4%nat = Some o /\ (o == 3)%Q).
Proof.
  destruct (X7_Read_then_Write_delays ILP32 [1; 2; 3; 4; 5]%Q ring4_used)
    as (outs & st' & Ht & _ & Hall);
    [wf_concrete | simpl; lia | reflexivity |].
  exists outs, st'. split; [exact Ht|].
  split; [|split; [|split]].
  - destruct (Hall 0%nat) as (o & h & Ho & Hh & Hoh); [simpl; lia|].
    exists o. split; [exact Ho|]. vm_compute in Hh. injection Hh as <-. exact Hoh.
  - destruct (Hall 1%nat) as (o & h & Ho & Hh & Hoh); [simpl; lia|].
    exists o. split; [exact Ho|]. vm_compute in Hh. injection Hh as <-. exact Hoh.
  - destruct (Hall 2%nat) as (o & h & Ho & Hh & Hoh); [simpl; lia|].
    exists o. split; [exact Ho|]. vm_compute in Hh. injection Hh as <-. exact Hoh.
  - destruct (Hall 4%nat) as (o & h & Ho & Hh & Hoh); [simpl; lia|].
    exists o. split; [exact Ho|]. vm_compute in Hh. injection Hh as <-. exact Hoh.
Defined.

(** The samples the allpass section writes, tick by tick. *)
Lemma allpass_ticks_written (m : data_model) (d : nat) (g : Q) (xs : list Q) :
  forall st : DelayLineView,
  wf m st -> (1 <= d)%nat -> Z.of_nat d <= max_size_ st ->
  exists outs ws st',
    allpass_ticks m (Z.of_nat d) g xs st = Some (outs, st') /\
    length outs = length xs /\ length ws = length xs /\
    forall (t : nat) (x : Q), xs !! t = Some x ->
      exists h,
        delayed st d ws t = Some h /\
        ws !! t = Some (x + g * h)%Q /\
        outs !! t = Some (- (x + g * h) * g + h)%Q.
Proof.
  induction xs as [|x rest IH]; intros st Hwf Hd1 Hdc.
  - exists [], [], st. split; [reflexivity|]. split; [reflexivity|].
    split; [reflexivity|]. intros t x Hx. discriminate Hx.
  - pose proof Hwf as (Hc & Hl & Hp & _).
    pose proof (size_modulus_half m) as Hm.
    destruct (slot_is_Some m st (write_ptr_ st + Z.of_nat d) Hwf) as [h0 Hh0].
    pose proof (Write_wf m st (x + g * h0)%Q Hwf) as HW.
    pose proof (Write_preserves_wf m st _ _ Hwf HW) as Hwf1.
    set (st1 := set_write_ptr _ _) in *.
    destruct (IH st1 Hwf1 Hd1 Hdc) as (outs & ws & st' & Ht & Hlo & Hlw & Hall).
    exists ((- (x + g * h0) * g + h0)%Q :: outs), ((x + g * h0)%Q :: ws), st'.
    split; [|split; [|split]].
    + cbn [allpass_ticks].
      rewrite (Allpass_wf m st x g h0 (Z.of_nat d) Hwf) by (assumption || lia).
      simpl. fold st1. rewrite Ht. reflexivity.
    + cbn [length]. rewrite Hlo. reflexivity.
    + cbn [length]. rewrite Hlw. reflexivity.
    + intros [|t] x' Hx'.
      * simpl in Hx'. injection Hx' as <-. exists h0. split; [|split; reflexivity].
        unfold delayed. destruct (Nat.leb_spec d 0); [lia|].
        rewrite Nat.sub_0_r. exact Hh0.
      * simpl in Hx'. destruct (Hall t x' Hx') as (h & Hh & Hw & Ho).
        exists h. split; [|split; assumption].
        rewrite <- Hh.
        apply (delayed_shift m st st1 (x + g * h0)%Q ws d t); assumption.
Qed.

(** X8: one [Allpass] call per tick, with a fixed delay [d] between 1 and
    the capacity and a coefficient [g], is the Schroeder allpass section:
    every call is defined and the outputs [y] obey
    [y[t] = - g * x[t] + x[t - d] + g * y[t - d]] from tick [d] on; before
    that, [y[t] = - g * x[t] + (1 - g * g) * h] with [h] the sample the
    ring held [d - t] slots forward of the cursor before the first tick. *)
Theorem X8_Allpass_difference_equation (m : data_model) (d : nat) (g : Q)
    (xs : list Q) (st : DelayLineView) :
  wf m st -> (1 <= d)%nat -> Z.of_nat d <= max_size_ st ->
  exists outs st',
    allpass_ticks m (Z.of_nat d) g xs st = Some (outs, st') /\
    length outs = length xs /\
    forall (t : nat) (x : Q), xs !! t = Some x ->
      exists y,
        outs !! t = Some y /\
        ((t < d)%nat ->
           exists h, slot st (write_ptr_ st + Z.of_nat (d - t)) = Some h /\
                     (y == - g * x + (1 - g * g) * h)%Q) /\
        ((d <= t)%nat ->
           exists x' y', xs !! (t - d)%nat = Some x' /\
                         outs !! (t - d)%nat = Some y' /\
                         (y == - g * x + x' + g * y')%Q).
Proof.
  intros Hwf Hd1 Hdc.
  destruct (allpass_ticks_written m d g xs st Hwf Hd1 Hdc)
    as (outs & ws & st' & Ht & Hlo & Hlw & Hall).
  exists outs, st'. split; [exact Ht|]. split; [exact Hlo|].
  intros t x Hx. destruct (Hall t x Hx) as (h & Hh & Hw & Ho).
  eexists. split; [exact Ho|]. unfold delayed in Hh. split.
  - intros Hlt. destruct (Nat.leb_spec d t); [lia|].
    exists h. split; [exact Hh|]. ring.
  - intros Hle. destruct (Nat.leb_spec d t); [|lia].
    apply lookup_lt_Some in Hx.
    destruct (lookup_lt_is_Some_2 xs (t - d)%nat) as [x' Hx']; [lia|].
    destruct (Hall (t - d)%nat x' Hx') as (h' & _ & Hw' & Ho').
    rewrite Hw' in Hh. injection Hh as <-.
    eexists. eexists. split; [exact Hx'|]. split; [exact Ho'|]. ring.
Qed.

Lemma X8_Allpass_difference_equation_witness :
  exists outs st',
    allpass_ticks ILP32 (Z.of_nat 2) (1 # 2) [1; 0; 0; 0; 0]%Q ring4 = Some (outs, st') /\
    exists y x' y',
      outs !! 2%nat = Some y /\
      [1; 0; 0; 0; 0]%Q !! (2 - 2)%nat = Some x' /\
      outs !! (2 - 2)%nat = Some y' /\
      (y == - (1 # 2) * 0 + x' + (1 # 2) * y')%Q.
Proof.
  destruct (X8_Allpass_difference_equation ILP32 2 (1 # 2) [1; 0; 0; 0; 0]%Q ring4)
    as (outs & st' & Ht & _ & Hall); [wf_concrete | lia | simpl; lia |].
  exists outs, st'. split; [exact Ht|].
  destruct (Hall 2%nat 0%Q eq_refl) as (y & Hy & _ & Hge).
  destruct Hge as (x' & y' & Hx' & Hy' & Heq); [lia|].
  exists y, x', y'. repeat (split; [assumption|]). exact Heq.
Defined.

(** ** Reset, Init and the store *)

(** The loop of [Reset], with what it leaves outside the cleared range. *)
Lemma Reset_loop_full (m : data_model) (n : nat) : forall (i : Z) (line : list Q),
  0 <= i -> i + Z.of_nat n <= Z.of_nat (length line) ->
  i + Z.of_nat n < size_modulus m ->
  exists line', Reset_loop m n i line = Some line' /\
    length line' = length line /\
    (forall j : nat, i <= Z.of_nat j < i + Z.of_nat n -> line' !! j = Some 0%Q) /\
    (forall j : nat, Z.of_nat j < i \/ i + Z.of_nat n <= Z.of_nat j ->
       line' !! j = line !! j).
Proof.
  induction n as [|n IH]; intros i line Hi Hlen Hmod.
  - exists line. repeat split; trivial. intros j Hj. lia.
  - cbn [Reset_loop]. rewrite store_Some by lia. simpl.
    rewrite to_size_small by lia.
    destruct (IH (i + 1) (<[Z.to_nat i := 0%Q]> line)) as (l' & Hrun & Hl' & Hz & Hk).
    + lia.
    + rewrite length_insert. lia.
    + lia.
    + exists l'. split; [exact Hrun|]. rewrite length_insert in Hl'.
      split; [exact Hl'|]. split.
      * intros j Hj. destruct (Z.eq_dec (Z.of_nat j) i) as [E|Hne].
        -- rewrite Hk by lia. subst i. rewrite Nat2Z.id.
           apply list_lookup_insert_eq. lia.
        -- apply Hz. lia.
      * intros j Hj. rewrite Hk by lia. apply list_lookup_insert_ne. lia.
Qed.

Lemma Reset_full (m : data_model) (st : DelayLineView) :
  0 < max_size_ st < 2 ^ (size_bits m - 1) /\
  max_size_ st <= Z.of_nat (length (line_ st)) ->
  exists line',
    Reset m st = Some (mkDelayLineView (frac_ st) 0 1 line' (max_size_ st)) /\
    length line' = length (line_ st) /\
    (forall j : nat, Z.of_nat j < max_size_ st -> line' !! j = Some 0%Q) /\
    (forall j : nat, max_size_ st <= Z.of_nat j -> line' !! j = line_ st !! j).
Proof.
  intros (Hc & Hl). pose proof (size_modulus_half m).
  destruct (Reset_loop_full m (Z.to_nat (max_size_ st)) 0 (line_ st))
    as (l' & Hrun & Hlen & Hz & Hk); try lia.
  exists l'. unfold Reset. rewrite Hrun. simpl.
  split; [reflexivity|]. split; [exact Hlen|]. split.
  - intros j Hj. apply Hz. lia.
  - intros j Hj. apply Hk. lia.
Qed.

(** X9: [Reset] forgets the whole history.  Two well-formed objects of the
    same capacity and fraction whose stores agree beyond the ring are reset
    to the same object, whatever their ring contents, cursors and stored
    delays; and resetting a reset object changes nothing. *)
Theorem X9_Reset_forgets (m : data_model) (st st2 : DelayLineView) :
  wf m st -> wf m st2 ->
  max_size_ st2 = max_size_ st -> frac_ st2 = frac_ st ->
  length (line_ st2) = length (line_ st) ->
  (forall j : nat, max_size_ st <= Z.of_nat j -> line_ st2 !! j = line_ st !! j) ->
  exists st',
    Reset m st = Some st' /\ Reset m st2 = Some st' /\ Reset m st' = Some st'.
Proof.
  assert (Hsame : forall a b : DelayLineView,
    wf m a -> wf m b -> max_size_ b = max_size_ a -> frac_ b = frac_ a ->
    length (line_ b) = length (line_ a) ->
    (forall j : nat, max_size_ a <= Z.of_nat j -> line_ b !! j = line_ a !! j) ->
    Reset m b = Reset m a).
  { intros a b Ha Hb Hcap Hfrac Hlen Hout.
    destruct (Reset_full m a) as (la & -> & Hla & Hza & Hka);
      [destruct Ha as (? & ? & _); split; assumption|].
    destruct (Reset_full m b) as (lb & -> & Hlb & Hzb & Hkb);
      [destruct Hb as (? & ? & _); split; assumption|].
    rewrite Hcap, Hfrac. do 2 f_equal.
    apply list_eq. intros j.
    destruct (Z.lt_ge_cases (Z.of_nat j) (max_size_ a)) as [Hlt|Hge].
    - rewrite Hza, Hzb by lia. reflexivity.
    - rewrite Hka, Hkb by lia. apply Hout. exact Hge. }
  intros Hwf Hwf2 Hcap Hfrac Hlen Hout.
  destruct (Reset_full m st) as (l' & HR & Hl' & Hz & Hk);
    [destruct Hwf as (? & ? & _); split; assumption|].
  eexists. split; [exact HR|]. split.
  - rewrite <- HR. apply Hsame; assumption.
  - transitivity (Reset m st); [|exact HR].
    apply Hsame; try assumption; try reflexivity.
    exact (Reset_preserves_wf m st _ Hwf HR).
Qed.

Lemma X9_Reset_forgets_witness :
  exists st',
    Reset ILP32 ring4_used = Some st' /\ Reset ILP32 ring4 = Some st' /\
    Reset ILP32 st' = Some st'.
Proof.
  apply (X9_Reset_forgets ILP32 ring4_used ring4);
    [wf_concrete | wf_concrete | reflexivity | reflexivity | reflexivity |].
  intros j Hj. simpl in Hj.
  rewrite !lookup_ge_None_2 by (simpl; lia). reflexivity.
Defined.

(** X10: [DelayLine::Init()] does not depend on what the member array and
    the cursor and delay fields held before: for every array of [MaxSize]
    elements it is defined and leaves [MaxSize] zeros, the cursor at 0 and
    the delay 1.  It does not set the fraction, which stays as the
    constructor left it. *)
Theorem X10_DelayLine_Init (m : data_model) (MaxSize : Z) (buf : list Q)
    (st : DelayLineView) :
  0 < MaxSize < 2 ^ (size_bits m - 1) -> Z.of_nat (length buf) = MaxSize ->
  DelayLine_Init m MaxSize buf st =
  Some (mkDelayLineView (frac_ st) 0 1 (replicate (Z.to_nat MaxSize) 0%Q) MaxSize).
Proof.
  intros Hc Hlen. unfold DelayLine_Init, Init.
  set (st0 := mkDelayLineView _ _ _ buf MaxSize).
  destruct (Reset_full m st0) as (l' & -> & Hl' & Hz & _);
    [unfold st0; simpl; lia|].
  simpl in *. do 2 f_equal. apply list_eq. intros j.
  destruct (Z.lt_ge_cases (Z.of_nat j) MaxSize) as [Hlt|Hge].
  - rewrite Hz by exact Hlt. symmetry. apply lookup_replicate_2. lia.
  - rewrite lookup_ge_None_2 by lia.
    symmetry. apply lookup_ge_None_2. rewrite length_replicate. lia.
Qed.

Lemma X10_DelayLine_Init_witness :
  DelayLine_Init ILP32 4 [5; 6; 7; 8]%Q unconstructed =
  Some (mkDelayLineView (frac_ unconstructed) 0 1 (replicate (Z.to_nat 4) 0%Q) 4).
Proof.
  apply (X10_DelayLine_Init ILP32 4 [5; 6; 7; 8]%Q unconstructed);
    [simpl; lia | reflexivity].
Defined.

(** X11: [Init] leaves [frac_] as the constructor left it, and the first
    [Read()] shows it: on a ring of at least 2 slots, [Init], then
    [Write(x)], then [Read()] return [x * (1 - frac_)], with [frac_] the
    value the field held before [Init]. *)
Theorem X11_Init_leaves_frac (m : data_model) (buf : list Q) (cap : Z)
    (st0 : DelayLineView) (x : Q) :
  2 <= cap < 2 ^ (size_bits m - 1) -> cap <= Z.of_nat (length buf) ->
  exists st1 st2 r,
    Init m buf cap st0 = Some st1 /\ frac_ st1 = frac_ st0 /\
    Write m x st1 = Some st2 /\
    Read m st2 = Some r /\ (r == x * (1 - frac_ st0))%Q.
Proof.
  intros Hc Hl. unfold Init.
  destruct (Reset_full m (mkDelayLineView (frac_ st0) (write_ptr_ st0) (delay_ st0) buf cap))
    as (l' & -> & Hl' & Hz & _); [simpl; lia|].
  simpl in Hl', Hz. cbn [frac_ max_size_].
  set (st1 := mkDelayLineView (frac_ st0) 0 1 l' cap).
  assert (Hwf1 : wf m st1) by (unfold wf, st1; simpl; lia).
  pose proof (Write_wf m st1 x Hwf1) as HW.
  pose proof (Write_preserves_wf m st1 _ x Hwf1 HW) as Hwf2.
  destruct (Write_shift m st1 _ x Hwf1 HW) as [Hnew Hold].
  set (st2 := set_write_ptr _ _) in *.
  assert (Hb : slot st2 (write_ptr_ st2 + delay_ st2 + 1) = Some 0%Q).
  { change (delay_ st2) with 1.
    replace (write_ptr_ st2 + 1 + 1) with (write_ptr_ st2 + (1 + 1)) by lia.
    rewrite Hold by (simpl; lia). unfold slot, st1. simpl.
    rewrite Z.mod_small by lia. apply (Hz 1%nat). lia. }
  exists st1, st2. eexists. split; [reflexivity|]. split; [reflexivity|].
  split; [exact HW|]. split; [exact (Read_wf m st2 x 0 Hwf2 Hnew Hb)|].
  unfold lerp. simpl. ring.
Qed.

Lemma X11_Init_leaves_frac_witness :
  exists st1 st2 r,
    Init ILP32 [5; 6; 7; 8]%Q 4 unconstructed = Some st1 /\
    frac_ st1 = frac_ unconstructed /\
    Write ILP32 3 st1 = Some st2 /\
    Read ILP32 st2 = Some r /\ (r == 3 * (1 - frac_ unconstructed))%Q.
Proof.
  apply (X11_Init_leaves_frac ILP32 [5; 6; 7; 8]%Q 4 unconstructed 3); simpl; lia.
Defined.

(** X12: the stored-delay path clamps where the direct path wraps.  For a
    delay [d >= 0] of representable integer part [t], [SetDelay(d)] followed
    by [Read()] interpolates the slots [min t (capacity - 1)] and the next
    one forward of the cursor, [Read(d)] the slots [t] and [t + 1], both
    with the weight [d - t]; so the two agree whenever [t <= capacity - 1]. *)
Theorem X12_stored_and_direct_reads (m : data_model) (st : DelayLineView) (d : Q) :
  wf m st -> read_in_range d ->
  exists st' a b a' b',
    SetDelay_float m d st = Some st' /\
    slot st (write_ptr_ st + Z.min (Qtrunc d) (max_size_ st - 1)) = Some a /\
    slot st (write_ptr_ st + Z.min (Qtrunc d) (max_size_ st - 1) + 1) = Some b /\
    Read m st' = Some (lerp a b (d - inject_Z (Qtrunc d))) /\
    slot st (write_ptr_ st + Qtrunc d) = Some a' /\
    slot st (write_ptr_ st + Qtrunc d + 1) = Some b' /\
    Read_float m d st = Some (lerp a' b' (d - inject_Z (Qtrunc d))) /\
    (Qtrunc d <= max_size_ st - 1 -> Read m st' = Read_float m d st).
Proof.
  intros Hwf Hd. destruct (read_in_range_int32 d Hd) as [_ Ht].
  pose proof (SetDelay_float_nonneg m st d Hwf Ht) as HS.
  pose proof (SetDelay_float_preserves_wf m st _ d Hwf HS) as Hwf'.
  set (st' := set_delay _ _) in *.
  destruct (slot_pair m st (write_ptr_ st + Z.min (Qtrunc d) (max_size_ st - 1)) Hwf)
    as (a & b & Ha & Hb).
  destruct (slot_pair m st (write_ptr_ st + Qtrunc d) Hwf) as (a' & b' & Ha' & Hb').
  assert (HR : Read m st' = Some (lerp a b (d - inject_Z (Qtrunc d))))
    by exact (Read_wf m st' a b Hwf' Ha Hb).
  pose proof (Read_float_wf m st d a' b' Hwf Hd Ha' Hb') as HRf.
  exists st', a, b, a', b'. repeat (split; [assumption|]).
  intros Hle. rewrite HR, HRf. rewrite Z.min_l in Ha, Hb by lia.
  congruence.
Qed.

Lemma X12_stored_and_direct_reads_witness :
  exists st',
    SetDelay_float ILP32 (5 # 2) ramp8 = Some st' /\
    Read ILP32 st' = Read_float ILP32 (5 # 2) ramp8.
Proof.
  destruct (X12_stored_and_direct_reads ILP32 ramp8 (5 # 2))
    as (st' & a & b & a' & b' & HS & _ & _ & _ & _ & _ & _ & Heq).
  - wf_concrete.
  - split; vm_compute; discriminate.
  - exists st'. split; [exact HS|]. apply Heq. vm_compute. discriminate.
Defined.

Lemma Qtrunc_inject_Z (n : Z) : Qtrunc (inject_Z n) = n.
Proof. unfold Qtrunc. simpl. apply Z.quot_1_r. Qed.

(** X13: at a whole delay both interpolating reads return the stored sample
    itself: for [n >= 0] with representable indices, [Read(n)] and
    [ReadHermite(n)] equal the sample [n] slots forward of the cursor. *)
Theorem X13_whole_delay_reads_sample (m : data_model) (st : DelayLineView) (n : Z) :
  wf m st -> 0 <= n ->
  write_ptr_ st + n + max_size_ st + 2 <= INT32_MAX ->
  exists x r h,
    slot st (write_ptr_ st + n) = Some x /\
    Read_float m (inject_Z n) st = Some r /\ (r == x)%Q /\
    ReadHermite m (inject_Z n) st = Some h /\ (h == x)%Q.
Proof.
  intros Hwf Hn Hr. pose proof Hwf as (Hc & _ & Hp & _).
  assert (Hd0 : (0 <= inject_Z n)%Q).
  { change 0%Q with (inject_Z 0). rewrite <- Zle_Qle. exact Hn. }
  pose proof (Qtrunc_inject_Z n) as Ht.
  destruct (slot_is_Some m st (write_ptr_ st + n - 1) Hwf) as [xm1 Hm1].
  destruct (slot_is_Some m st (write_ptr_ st + n) Hwf) as [x0 H0].
  destruct (slot_is_Some m st (write_ptr_ st + n + 1) Hwf) as [x1 H1].
  destruct (slot_is_Some m st (write_ptr_ st + n + 2) Hwf) as [x2 H2].
  destruct (ReadHermite_wf m st (inject_Z n) xm1 x0 x1 x2 Hwf) as (h & HR & Hh);
    try (rewrite Ht; assumption).
  { split; [exact Hd0 | rewrite Ht; exact Hr]. }
  exists x0, (lerp x0 x1 (inject_Z n - inject_Z (Qtrunc (inject_Z n)))), h.
  split; [exact H0|]. split; [|split; [|split; [exact HR|]]].
  - apply Read_float_wf; try assumption; try (rewrite Ht; assumption).
    split; [exact Hd0 | rewrite Ht; lia].
  - rewrite Ht. unfold lerp. generalize (inject_Z n). intros q. ring.
  - rewrite Hh, Ht. unfold hermite_spec. generalize (inject_Z n). intros q. field.
Qed.

Lemma X13_whole_delay_reads_sample_witness :
  exists x r h,
    slot ramp8 (write_ptr_ ramp8 + 3) = Some x /\
    Read_float ILP32 (inject_Z 3) ramp8 = Some r /\ (r == x)%Q /\
    ReadHermite ILP32 (inject_Z 3) ramp8 = Some h /\ (h == x)%Q.
Proof.
  apply (X13_whole_delay_reads_sample ILP32 ramp8 3);
    [wf_concrete | lia | vm_compute; discriminate].
Defined.

Lemma frac_bounds (d : Q) :
  (0 <= d)%Q ->
  (0 <= d - inject_Z (Qtrunc d))%Q /\ (d - inject_Z (Qtrunc d) < 1)%Q.
Proof.
  intros H. rewrite Qtrunc_nonneg_floor by exact H.
  pose proof (Qfloor_le d) as Hlo. pose proof (Qlt_floor d) as Hhi.
  rewrite inject_Z_plus in Hhi. change (inject_Z 1) with 1%Q in Hhi.
  generalize dependent (inject_Z (Qfloor d)). intros q Hlo Hhi. split; lra.
Qed.

(** X14: the linear read never overshoots: for every delay [d >= 0] of
    representable integer part [t], [Read(d)] lies between the samples [t]
    and [t + 1] slots forward of the cursor. *)
Theorem X14_Read_float_between (m : data_model) (st : DelayLineView) (d : Q) :
  wf m st -> read_in_range d ->
  exists a b r,
    slot st (write_ptr_ st + Qtrunc d) = Some a /\
    slot st (write_ptr_ st + Qtrunc d + 1) = Some b /\
    Read_float m d st = Some r /\
    ((a <= b)%Q -> (a <= r)%Q /\ (r <= b)%Q) /\
    ((b <= a)%Q -> (b <= r)%Q /\ (r <= a)%Q).
Proof.
  intros Hwf Hd.
  destruct (slot_pair m st (write_ptr_ st + Qtrunc d) Hwf) as (a & b & Ha & Hb).
  exists a, b. eexists. split; [exact Ha|]. split; [exact Hb|].
  split; [exact (Read_float_wf m st d a b Hwf Hd Ha Hb)|].
  destruct (frac_bounds d (proj1 Hd)) as [Hf0 Hf1].
  unfold lerp. generalize dependent (d - inject_Z (Qtrunc d))%Q.
  intros f Hf0 Hf1. split; intros Hab; split; nra.
Qed.

Lemma X14_Read_float_between_witness :
  exists a b r,
    slot ramp8 (write_ptr_ ramp8 + Qtrunc (5 # 2)) = Some a /\
    slot ramp8 (write_ptr_ ramp8 + Qtrunc (5 # 2) + 1) = Some b /\
    Read_float ILP32 (5 # 2) ramp8 = Some r /\
    ((a <= b)%Q -> (a <= r)%Q /\ (r <= b)%Q) /\
    ((b <= a)%Q -> (b <= r)%Q /\ (r <= a)%Q).
Proof.
  apply (X14_Read_float_between ILP32 ramp8 (5 # 2));
    [wf_concrete | split; vm_compute; discriminate].
Defined.

(** ** What no call does *)

(** One call: the capacity, the length of the store and the store beyond
    the ring are untouched; only [Reset], [Write] and [Allpass] touch the
    ring and the cursor. *)
Lemma exec_frame (m : data_model) (c : call) (st st' : DelayLineView) :
  wf m st -> exec m c st = Some st' ->
  max_size_ st' = max_size_ st /\
  length (line_ st') = length (line_ st) /\
  (forall j : nat, max_size_ st <= Z.of_nat j -> line_ st' !! j = line_ st !! j) /\
  match c with
  | CallReset | CallWrite _ | CallAllpass _ _ _ => True
  | _ => line_ st' = line_ st /\ write_ptr_ st' = write_ptr_ st
  end.
Proof.
  intros Hwf He. pose proof Hwf as (Hc & Hl & Hp & Hd).
  assert (HWr : forall w st1, Write m w st = Some st1 ->
    max_size_ st1 = max_size_ st /\
    length (line_ st1) = length (line_ st) /\
    (forall j : nat, max_size_ st <= Z.of_nat j -> line_ st1 !! j = line_ st !! j)).
  { intros w st1 HW. rewrite Write_wf in HW by exact Hwf. injection HW as <-.
    simpl. split; [reflexivity|]. split; [apply length_insert|].
    intros j Hj. apply list_lookup_insert_ne. lia. }
  destruct c as [|d|d|s| |d|d|s d g]; cbn [exec] in He.
  - destruct (Reset_full m st) as (l' & HR & Hl' & _ & Hk); [split; assumption|].
    rewrite HR in He. injection He as <-. simpl. repeat split; assumption.
  - unfold SetDelay in He. injection He as <-. simpl. repeat split; reflexivity.
  - unfold SetDelay_float in He.
    destruct (float_to_int32 d); simpl in He; [|discriminate].
    injection He as <-. simpl. repeat split; reflexivity.
  - destruct (HWr s st' He) as (H1 & H2 & H3). repeat split; assumption.
  - destruct (Read m st); simpl in He; [|discriminate].
    injection He as <-. repeat split; reflexivity.
  - destruct (Read_float m d st); simpl in He; [|discriminate].
    injection He as <-. repeat split; reflexivity.
  - destruct (ReadHermite m d st); simpl in He; [|discriminate].
    injection He as <-. repeat split; reflexivity.
  - destruct (Allpass m s (to_size m d) g st) as [[o st1]|] eqn:HA;
      simpl in He; [|discriminate].
    injection He as <-. apply Allpass_writes in HA as [w HW].
    destruct (HWr w st1 HW) as (H1 & H2 & H3). repeat split; assumption.
Qed.

(** X15: no call sequence on a well-formed object changes the capacity or
    the length of the caller's store, nor any element of the store at or
    beyond index [max_size_]; and a single call other than [Reset], [Write]
    and [Allpass] changes neither the store nor the cursor. *)
Theorem X15_calls_stay_in_the_ring (m : data_model) (cs : list call) :
  forall st st' : DelayLineView,
  wf m st -> run m cs st = Some st' ->
  max_size_ st' = max_size_ st /\
  length (line_ st') = length (line_ st) /\
  (forall j : nat, max_size_ st <= Z.of_nat j -> line_ st' !! j = line_ st !! j) /\
  (forall (c : call) (st1 : DelayLineView),
     exec m c st = Some st1 ->
     match c with
     | CallReset | CallWrite _ | CallAllpass _ _ _ => True
     | _ => line_ st1 = line_ st /\ write_ptr_ st1 = write_ptr_ st
     end).
Proof.
  induction cs as [|c cs IH]; intros st st' Hwf Hr; cbn [run] in Hr.
  - injection Hr as <-. repeat split; try reflexivity.
    intros c st1 He. apply (exec_frame m c st st1 Hwf He).
  - destruct (exec m c st) as [st1|] eqn:He; simpl in Hr; [|discriminate].
    destruct (exec_frame m c st st1 Hwf He) as (Hm1 & Hl1 & Hk1 & _).
    pose proof (exec_preserves_wf m c st st1 Hwf He) as Hwf1.
    destruct (IH st1 st' Hwf1 Hr) as (Hm & Hl & Hk & _).
    split; [congruence|]. split; [congruence|]. split.
    + intros j Hj. rewrite Hk by lia. apply Hk1. exact Hj.
    + intros c' st2 He'. apply (exec_frame m c' st st2 Hwf He').
Qed.

Lemma X15_calls_stay_in_the_ring_witness :
  exists st',
    run ILP32 session ring4_of_6 = Some st' /\
    max_size_ st' = 4 /\ length (line_ st') = 6%nat /\
    line_ st' !! 4%nat = Some 77%Q /\ line_ st' !! 5%nat = Some 88%Q.
Proof.
  assert (Hrun : is_Some (run ILP32 session ring4_of_6)).
  { vm_compute. eexists. reflexivity. }
  destruct Hrun as [st' Hrun].
  destruct (X15_calls_stay_in_the_ring ILP32 session ring4_of_6 st')
    as (Hm & Hl & Hk & _); [wf_concrete | exact Hrun |].
  exists st'. split; [exact Hrun|]. split; [exact Hm|]. split; [exact Hl|].
  split; [rewrite (Hk 4%nat) | rewrite (Hk 5%nat)]; simpl; (lia || reflexivity).
Defined.

Lemma call_safe_in_range (m : data_model) (c : call) (st : DelayLineView) :
  wf m st -> call_safe (max_size_ st) c = true -> call_in_range st c.
Proof.
  intros (Hc & _ & Hp & _) Hs.
  destruct c as [|d|d|s| |d|d|s d g]; cbn [call_safe call_in_range] in *;
    try exact I.
  - exact Hs.
  - apply andb_prop in Hs as [H0 H1]. apply Qle_bool_iff in H0.
    apply Z.leb_le in H1. split; assumption.
  - apply andb_prop in Hs as [H0 H1]. apply Qle_bool_iff in H0.
    apply Z.leb_le in H1. split; [exact H0 | lia].
Qed.

(** X16: on a well-formed object no sequence of calls with safe arguments
    traps or reads or writes outside the store: float delays that convert
    to [int32_t], non-negative for the reads, with room for the four indices
    of [ReadHermite].  Every call is defined, and the object stays well
    formed. *)
Theorem X16_safe_calls_are_defined (m : data_model) (cs : list call) :
  forall st : DelayLineView,
  wf m st -> forallb (call_safe (max_size_ st)) cs = true ->
  exists st', run m cs st = Some st' /\ wf m st'.
Proof.
  induction cs as [|c cs IH]; intros st Hwf Hs; cbn [run forallb] in *.
  - exists st. split; [reflexivity | exact Hwf].
  - apply andb_prop in Hs as [Hc Hcs].
    destruct (exec_defined m c st Hwf (call_safe_in_range m c st Hwf Hc)) as [st1 He].
    pose proof (exec_preserves_wf m c st st1 Hwf He) as Hwf1.
    destruct (exec_frame m c st st1 Hwf He) as (Hm1 & _).
    destruct (IH st1 Hwf1) as (st' & Hr & Hwf'); [rewrite Hm1; exact Hcs|].
    exists st'. split; [|exact Hwf']. rewrite He. exact Hr.
Qed.

Lemma X16_safe_calls_are_defined_witness :
  exists st', run ILP32 session ring4_used = Some st' /\ wf ILP32 st'.
Proof.
  apply (X16_safe_calls_are_defined ILP32 session ring4_used);
    [wf_concrete | reflexivity].
Defined.
